(** * A payload-routing reverse proxy: routing and relay

    Shallow embedding of [reverse_proxy.py]: the stream classifier
    ([is_stream]), the endpoint resolver ([determine_target_endpoint],
    [find_target_endpoint], [parse_host_header]), the two relay loops
    ([handle_regular_http], [handle_streaming]) and the connection handler
    ([handle_client]).

    Python values are modelled as follows.
    - [bytes] is [list byte]; [str] is the list of its code points
      ([list N]).
    - A function that may raise returns [res A] ([Ok] or [Raise]); a
      [try ... except] turns a [Raise] into the handler's value.
    - Sockets are scripted: the world holds what each [recv] and [sendall]
      will do, and a trace records every socket call in order. *)

From Stdlib Require Import ZArith NArith List Lia Strings.String Strings.Byte.
From stdpp Require Import base option list gmap.

Set Warnings "-register-all".

#[global] Instance byte_eq_dec : EqDecision byte := Byte.byte_eq_dec.

Abbreviation bytes := (list byte).
Abbreviation str := (list N).

(** ** Exceptions *)

Inductive exn : Type :=
  | ValueError
  | IndexError
  | AttributeError
  | TypeError
  | UnicodeDecodeError
  | JSONDecodeError
  | OSError.

Inductive res (A : Type) : Type :=
  | Ok (a : A)
  | Raise (e : exn).
Arguments Ok {A} a.
Arguments Raise {A} e.

#[global] Instance res_ret : MRet res := λ A a, Ok a.
#[global] Instance res_bind : MBind res := λ A B f m,
  match m with
  | Ok a => f a
  | Raise e => Raise e
  end.

(** [of_option e o]: the value of [o], or the exception [e]. *)
Definition of_option {A} (e : exn) (o : option A) : res A :=
  match o with
  | Some a => Ok a
  | None => Raise e
  end.

(** ** Python built-ins used by the proxy *)

Module Py.

(** Literals: [b "..."] is the bytes literal, [u "..."] the text literal
    (ASCII only, which is all the source uses). *)
Definition b (s : string) : bytes := list_byte_of_string s.
Definition u (s : string) : str := map Byte.to_N (list_byte_of_string s).

Definition CR : byte := x0d.
Definition LF : byte := x0a.
Definition CRLF : bytes := [CR; LF].

Section Sequences.
Context {A : Type} `{!EqDecision A}.

(** [s.startswith(p)] *)
Fixpoint startswith (p s : list A) : bool :=
  match p, s with
  | [], _ => true
  | _ :: _, [] => false
  | x :: p', y :: s' => bool_decide (x = y) && startswith p' s'
  end.

(** [s.find(sep)]: index of the leftmost occurrence of [sep] in [s]. *)
Fixpoint find (sep s : list A) : option nat :=
  if startswith sep s then Some 0
  else match s with
       | [] => None
       | _ :: s' => S <$> find sep s'
       end.

(** [sep in s] *)
Definition contains (sep s : list A) : bool :=
  match find sep s with
  | Some _ => true
  | None => false
  end.

(** [s.split(sep, maxsplit)] for a non-empty separator: cut at the leftmost
    occurrence, continue with what follows it; [maxsplit = None] is the
    call without the second argument.  Every cut consumes at least one
    element, so [length s] rounds are enough. *)
Fixpoint split_rounds (rounds : nat) (sep s : list A) (maxsplit : option nat)
  : list (list A) :=
  match rounds with
  | O => [s]
  | S rounds' =>
      match maxsplit with
      | Some O => [s]
      | _ =>
          match find sep s with
          | None => [s]
          | Some i =>
              take i s ::
              split_rounds rounds' sep (drop (i + length sep) s) (pred <$> maxsplit)
          end
      end
  end.

Definition split (sep s : list A) (maxsplit : option nat) : list (list A) :=
  split_rounds (length s) sep s maxsplit.

(** [next((x for x in l if p(x)), default)] *)
Definition next_or (p : list A → bool) (l : list (list A)) (default : list A)
  : list A :=
  match filter (λ x, p x = true) l with
  | x :: _ => x
  | [] => default
  end.

End Sequences.

(** [c.isspace()] for one code point: the characters [str.strip()] removes. *)
Local Open Scope N_scope.

Definition isspace (c : N) : bool :=
  ((9 <=? c) && (c <=? 13)) || ((28 <=? c) && (c <=? 32))
  || (c =? 0x85) || (c =? 0xA0) || (c =? 0x1680)
  || ((0x2000 <=? c) && (c <=? 0x200A))
  || (c =? 0x2028) || (c =? 0x2029) || (c =? 0x202F) || (c =? 0x205F)
  || (c =? 0x3000).

Fixpoint lstrip (s : str) : str :=
  match s with
  | c :: s' => if isspace c then lstrip s' else s
  | [] => []
  end.

Definition rstrip (s : str) : str := rev (lstrip (rev s)).

(** [s.strip()] *)
Definition strip (s : str) : str := rstrip (lstrip s).

(** [bs.decode()]: strict UTF-8. *)
Definition continuation (x : N) : bool := (0x80 <=? x) && (x <=? 0xBF).

Fixpoint decode_utf8 (l : list N) : option str :=
  match l with
  | [] => Some []
  | b0 :: r0 =>
      if b0 <? 0x80 then cons b0 <$> decode_utf8 r0
      else if (0xC2 <=? b0) && (b0 <=? 0xDF) then
        match r0 with
        | b1 :: r1 =>
            if continuation b1
            then cons ((b0 - 0xC0) * 64 + (b1 - 0x80)) <$> decode_utf8 r1
            else None
        | _ => None
        end
      else if (0xE0 <=? b0) && (b0 <=? 0xEF) then
        match r0 with
        | b1 :: b2 :: r2 =>
            if ((if b0 =? 0xE0 then 0xA0 else 0x80) <=? b1)
               && (b1 <=? (if b0 =? 0xED then 0x9F else 0xBF))
               && continuation b2
            then cons ((b0 - 0xE0) * 4096 + (b1 - 0x80) * 64 + (b2 - 0x80))
                   <$> decode_utf8 r2
            else None
        | _ => None
        end
      else if (0xF0 <=? b0) && (b0 <=? 0xF4) then
        match r0 with
        | b1 :: b2 :: b3 :: r3 =>
            if ((if b0 =? 0xF0 then 0x90 else 0x80) <=? b1)
               && (b1 <=? (if b0 =? 0xF4 then 0x8F else 0xBF))
               && continuation b2 && continuation b3
            then cons ((b0 - 0xF0) * 262144 + (b1 - 0x80) * 4096
                       + (b2 - 0x80) * 64 + (b3 - 0x80))
                   <$> decode_utf8 r3
            else None
        | _ => None
        end
      else None
  end.

Definition decode (bs : bytes) : res str :=
  of_option UnicodeDecodeError (decode_utf8 (map Byte.to_N bs)).

(** [int(s)] in base 10.  Code points below 127 are taken as they are; a
    wider white space counts as a space and a wider decimal digit as its
    ASCII digit, through [unicode_decimal], the interpreter's table of
    decimal digits beyond ASCII.  Then: optional white space, an optional
    sign, digits that single underscores may separate, optional white
    space.  The digits are counted, leading zeros included and underscores
    not: more than [max_str_digits] of them are refused with the same
    [ValueError] (the interpreter's default bound,
    [sys.int_info.default_max_str_digits]). *)
Definition max_str_digits : nat := 4300.
Definition is_digit (c : N) : bool := (48 <=? c) && (c <=? 57).
Definition digit_value (c : N) : Z := (Z.of_N c - 48)%Z.
Definition ascii_space (c : N) : bool := ((9 <=? c) && (c <=? 13)) || (c =? 32).

Fixpoint digits (acc : Z) (count : nat) (t : list N) : option (Z * nat * list N) :=
  match t with
  | [] => Some (acc, count, [])
  | c :: r =>
      if is_digit c then digits (10 * acc + digit_value c)%Z (S count) r
      else if c =? 95 then
        match r with
        | d :: r' =>
            if is_digit d then digits (10 * acc + digit_value d)%Z (S count) r'
            else None
        | [] => None
        end
      else Some (acc, count, t)
  end.

Fixpoint lstrip_ascii (t : list N) : list N :=
  match t with
  | c :: r => if ascii_space c then lstrip_ascii r else t
  | [] => []
  end.

Definition number (t : list N) : option (Z * nat * list N) :=
  match t with
  | c :: r => if is_digit c then digits (digit_value c) 1%nat r else None
  | [] => None
  end.

Section Int.
Variable unicode_decimal : N → option N.

Definition to_ascii (c : N) : option N :=
  if c <? 127 then Some c
  else if isspace c then Some 32
  else (λ d, 48 + d) <$> unicode_decimal c.

Definition int (s : str) : res Z :=
  of_option ValueError (
    t ← mapM to_ascii s;
    let t1 := lstrip_ascii t in
    let '(negative, t2) :=
      match t1 with
      | 45%N :: r => (true, r)
      | 43%N :: r => (false, r)
      | _ => (false, t1)
      end in
    '(n, count, rest) ← number t2;
    if bool_decide (lstrip_ascii rest = []) then
      if bool_decide (count ≤ max_str_digits)%nat
      then Some (if negative then - n else n)%Z
      else None
    else None).
End Int.

End Py.

(** ** JSON values, as [json.loads] builds them *)

(** A float is carried as the decimal literal it was read from
    ([mantissa] times ten to the [exponent]); the proxy only ever
    compares a value with a string. *)
Inductive pyobj : Type :=
  | PyNone
  | PyBool (v : bool)
  | PyInt (z : Z)
  | PyFloat (mantissa exponent : Z)
  | PyNaN
  | PyInf (negative : bool)
  | PyStr (s : str)
  | PyList (l : list pyobj)
  | PyDict (d : gmap str pyobj).

(** [payload.get(key)]: only a dict has the method; a missing key gives
    [None]. *)
Definition py_get (payload : pyobj) (key : str) : res pyobj :=
  match payload with
  | PyDict d => Ok (default PyNone (d !! key))
  | _ => Raise AttributeError
  end.

(** [v == s] for a string [s]. *)
Definition py_eq_str (v : pyobj) (s : str) : bool :=
  match v with
  | PyStr t => bool_decide (t = s)
  | _ => false
  end.

(** [l[i]] *)
Definition py_index {A} (l : list A) (i : nat) : res A :=
  of_option IndexError (l !! i).

(** ** The endpoint table *)

Record EndpointRule : Type := {
  match_field : str;
  match_value : str;
  target_host : str;
  target_port : Z
}.

(** A routing decision as the source returns it: a pair, [(None, None)]
    for "none". *)
Abbreviation decision := (option str * option Z)%type.

Definition no_target : decision := (None, None).

(** [not target_host]: [None] and the empty string are falsy. *)
Definition falsy (h : option str) : bool :=
  match h with
  | None => true
  | Some [] => true
  | Some (_ :: _) => false
  end.

Definition BUFFER_SIZE : nat := 4096.

(** ** Routing *)

Section Routing.

(** The interpreter's decimal digits beyond ASCII (used by [int]), the JSON
    reader ([None] when [json.loads] raises), and the endpoint table in
    insertion order, as loaded from the configuration. *)
Variable unicode_decimal : N → option N.
Variable json_loads : bytes → option pyobj.
Variable API_ENDPOINTS : list (str * EndpointRule).

Definition is_stream (data : bytes) : bool :=
  Py.contains (Py.b "Transfer-Encoding: chunked") data.

Definition parse_host_header (host_header : bytes) : decision :=
  let attempt : res (str * Z) :=
    text ← Py.decode host_header;
    let host_header := Py.split (Py.u ":") text None in
    field ← py_index host_header 1;
    let original_host := Py.strip field in
    original_port ←
      (if bool_decide (2 < length host_header)
       then port ← py_index host_header 2; Py.int unicode_decimal (Py.strip port)
       else Ok 80%Z);
    Ok (original_host, original_port) in
  match attempt with
  | Ok (original_host, original_port) => (Some original_host, Some original_port)
  | Raise _ => no_target
  end.

Fixpoint find_target_endpoint_in (table : list (str * EndpointRule))
    (payload : pyobj) : res decision :=
  match table with
  | [] => Ok no_target
  | (endpoint, config) :: table' =>
      v ← py_get payload (match_field config);
      if py_eq_str v (match_value config)
      then Ok (Some (target_host config), Some (target_port config))
      else find_target_endpoint_in table' payload
  end.

Definition find_target_endpoint (payload : pyobj) : res decision :=
  find_target_endpoint_in API_ENDPOINTS payload.

(** The [Host: ] line of the header block, or the empty bytes. *)
Definition host_line (headers : bytes) : bytes :=
  Py.next_or (Py.startswith (Py.b "Host: "))
             (Py.split Py.CRLF headers None) [].

Definition determine_target_endpoint (data : bytes) (is_streaming : bool)
  : decision :=
  let attempt : res (option decision) :=
    if negb is_streaming then
      match Py.split (Py.CRLF ++ Py.CRLF) data (Some 1) with
      | [headers; payload_str] =>
          payload ← of_option JSONDecodeError (json_loads payload_str);
          let host_header := host_line headers in
          let '(original_host, original_port) := parse_host_header host_header in
          '(target_host, target_port) ← find_target_endpoint payload;
          if falsy target_host
          then Ok (Some (original_host, original_port))
          else Ok (Some (target_host, target_port))
      | _ => Raise ValueError
      end
    else Ok None in
  match attempt with
  | Ok (Some found) => found
  | Ok None => no_target
  | Raise _ => no_target
  end.

End Routing.

(** ** Sockets

    A connection has two sockets, the client's and the target's.  The world
    scripts them: [client_recv] holds what the successive
    [client_socket.recv] calls return (a chunk, possibly empty, or an
    error), [client_send] whether the successive [client_socket.sendall]
    calls succeed, and likewise for the target; [dial] tells whether
    [connect] succeeds.  A peer whose script is used up has closed: [recv]
    returns the empty bytes, [sendall] succeeds.  A scripted chunk is what
    one [recv(BUFFER_SIZE)] returns, so at most [BUFFER_SIZE] bytes in a
    real run; nothing below depends on that bound.  Every call is appended
    to [trace]. *)

Inductive peer : Type := Client | Target.

Inductive recv_result : Type :=
  | Received (data : bytes)
  | RecvFails.

Inductive io_event : Type :=
  | EvRecv (from : peer) (r : recv_result)
  | EvSend (to : peer) (data : bytes) (ok : bool)
  | EvConnect (host : str) (port : Z) (ok : bool)
  | EvClose (who : peer).

Record world : Type := World {
  client_recv : list recv_result;
  target_recv : list recv_result;
  client_send : list bool;
  target_send : list bool;
  dial : bool;
  trace : list io_event
}.

(** The outcome of running a piece of the handler: it returned or raised,
    in a new world, or the loop bound given to it was not enough. *)
Inductive run (A : Type) : Type :=
  | Done (r : res A) (w : world)
  | Unfinished.
Arguments Done {A} r w.
Arguments Unfinished {A}.

Definition IO (A : Type) : Type := world → run A.

Definition io_ret {A} (a : A) : IO A := λ w, Done (Ok a) w.

Definition io_bind {A B} (m : IO A) (k : A → IO B) : IO B := λ w,
  match m w with
  | Done (Ok a) w' => k a w'
  | Done (Raise e) w' => Done (Raise e) w'
  | Unfinished => Unfinished
  end.

Declare Scope io_scope.
Delimit Scope io_scope with io.
Notation "x <- m ;; k" := (io_bind m (λ x, k))
  (at level 100, m at next level, right associativity) : io_scope.
Notation "m ;; k" := (io_bind m (λ _, k))
  (at level 100, right associativity) : io_scope.

(** [try: m except: handler] *)
Definition try_except {A} (m handler : IO A) : IO A := λ w,
  match m w with
  | Done (Raise _) w' => handler w'
  | other => other
  end.

(** [try: m finally: cleanup] (also the exit of a [with] block) *)
Definition try_finally {A} (m : IO A) (cleanup : IO unit) : IO A := λ w,
  match m w with
  | Done r w' =>
      match cleanup w' with
      | Done (Ok _) w'' => Done r w''
      | Done (Raise e) w'' => Done (Raise e) w''
      | Unfinished => Unfinished
      end
  | Unfinished => Unfinished
  end.

Definition log (e : io_event) (w : world) : world :=
  World (client_recv w) (target_recv w) (client_send w) (target_send w)
        (dial w) (trace w ++ [e]).

Definition recv_script (p : peer) (w : world) : list recv_result :=
  match p with
  | Client => client_recv w
  | Target => target_recv w
  end.

Definition send_script (p : peer) (w : world) : list bool :=
  match p with
  | Client => client_send w
  | Target => target_send w
  end.

Definition set_recv_script (p : peer) (s : list recv_result) (w : world) : world :=
  match p with
  | Client => World s (target_recv w) (client_send w) (target_send w) (dial w) (trace w)
  | Target => World (client_recv w) s (client_send w) (target_send w) (dial w) (trace w)
  end.

Definition set_send_script (p : peer) (s : list bool) (w : world) : world :=
  match p with
  | Client => World (client_recv w) (target_recv w) s (target_send w) (dial w) (trace w)
  | Target => World (client_recv w) (target_recv w) (client_send w) s (dial w) (trace w)
  end.

(** [sock.recv(BUFFER_SIZE)] *)
Definition recv (p : peer) : IO bytes := λ w,
  let r := hd (Received []) (recv_script p w) in
  let w' := log (EvRecv p r) (set_recv_script p (tl (recv_script p w)) w) in
  match r with
  | Received data => Done (Ok data) w'
  | RecvFails => Done (Raise OSError) w'
  end.

(** [sock.sendall(data)] *)
Definition sendall (p : peer) (data : bytes) : IO unit := λ w,
  let ok := hd true (send_script p w) in
  let w' := log (EvSend p data ok) (set_send_script p (tl (send_script p w)) w) in
  if ok then Done (Ok ()) w' else Done (Raise OSError) w'.

(** [target_socket.connect((host, port))]: the arguments are checked before
    anything goes on the wire. *)
Definition connect (host : option str) (port : option Z) : IO unit := λ w,
  match host, port with
  | Some h, Some p =>
      let w' := log (EvConnect h p (dial w)) w in
      if dial w then Done (Ok ()) w' else Done (Raise OSError) w'
  | _, _ => Done (Raise TypeError) w
  end.

(** [sock.close()] *)
Definition close (p : peer) : IO unit := λ w, Done (Ok ()) (log (EvClose p) w).

(** [not data] *)
Definition empty (data : bytes) : bool :=
  match data with
  | [] => true
  | _ :: _ => false
  end.

(** ** The relays *)

Local Open Scope io_scope.

(** One turn of the [while True] loop of [handle_streaming]; [true] when the
    loop goes round again, [false] on [break]. *)
Definition streaming_round : IO bool :=
  try_except
    (data <- recv Client;;
     if empty data then io_ret false
     else
       sendall Target data;;
       response <- recv Target;;
       if empty response then io_ret false
       else
         sendall Client response;;
         io_ret true)
    (io_ret false).

Fixpoint handle_streaming (rounds : nat) : IO unit :=
  match rounds with
  | O => λ _, Unfinished
  | S rounds' =>
      again <- streaming_round;;
      if again then handle_streaming rounds' else io_ret ()
  end.

(** [while data: dst.sendall(data); data = src.recv(BUFFER_SIZE)] *)
Fixpoint copy_until_closed (rounds : nat) (src dst : peer) (data : bytes)
  : IO unit :=
  if empty data then io_ret ()
  else match rounds with
       | O => λ _, Unfinished
       | S rounds' =>
           sendall dst data;;
           data' <- recv src;;
           copy_until_closed rounds' src dst data'
       end.

Definition handle_regular_http (rounds : nat) : IO unit :=
  data <- recv Client;;
  copy_until_closed rounds Client Target data;;
  response <- recv Target;;
  copy_until_closed rounds Target Client response.

(** ** The connection handler *)

Section Handler.
Variable unicode_decimal : N → option N.
Variable json_loads : bytes → option pyobj.
Variable API_ENDPOINTS : list (str * EndpointRule).

Definition handle_client (rounds : nat) : IO unit :=
  try_finally
    (try_except
       (data <- recv Client;;
        if empty data then close Client
        else
          let is_streaming := is_stream data in
          let '(target_host, target_port) :=
            determine_target_endpoint unicode_decimal json_loads API_ENDPOINTS
              data is_streaming in
          if falsy target_host then close Client
          else
            try_finally
              (connect target_host target_port;;
               sendall Target data;;
               if is_streaming then handle_streaming rounds
               else handle_regular_http rounds)
              (close Target))
       (io_ret ()))
    (close Client).

End Handler.

Local Close Scope io_scope.

(** ** A reference JSON reader

    The theorems below hold for every reader [json_loads].  For closed
    examples this one is used: a recursive-descent reader of UTF-8 JSON
    text with the grammar [json.loads] accepts (the four white-space
    characters, the literals including [NaN] and [Infinity], strings with
    their escapes, numbers, arrays, objects whose later duplicate keys
    replace earlier ones, nothing but white space after the value).
    [json.loads] also sniffs UTF-16 and UTF-32 input, which this reader
    rejects. *)

Module Json.
Local Open Scope N_scope.

Definition ws (c : N) : bool := (c =? 32) || (c =? 9) || (c =? 10) || (c =? 13).

Fixpoint skip_ws (t : str) : str :=
  match t with
  | c :: r => if ws c then skip_ws r else t
  | [] => []
  end.

Definition hex_value (c : N) : option N :=
  if (48 <=? c) && (c <=? 57) then Some (c - 48)
  else if (97 <=? c) && (c <=? 102) then Some (c - 87)
  else if (65 <=? c) && (c <=? 70) then Some (c - 55)
  else None.

(** The four hex digits after [\u]. *)
Definition hex4 (t : str) : option (N * str) :=
  match t with
  | a :: b :: c :: d :: r =>
      a ← hex_value a; b ← hex_value b; c ← hex_value c; d ← hex_value d;
      Some (a * 4096 + b * 256 + c * 16 + d, r)
  | _ => None
  end.

(** The body of a string, after its opening quote. *)
Fixpoint string_body (rounds : nat) (t : str) : option (str * str) :=
  match rounds with
  | O => None
  | S rounds' =>
      match t with
      | [] => None
      | 34 :: r => Some ([], r)
      | 92 :: e :: r =>
          let simple (c : N) := '(s, r') ← string_body rounds' r; Some (c :: s, r') in
          if e =? 34 then simple 34
          else if e =? 92 then simple 92
          else if e =? 47 then simple 47
          else if e =? 98 then simple 8
          else if e =? 102 then simple 12
          else if e =? 110 then simple 10
          else if e =? 114 then simple 13
          else if e =? 116 then simple 9
          else if e =? 117 then
            '(hi, r1) ← hex4 r;
            let lone := '(s, r') ← string_body rounds' r1; Some (hi :: s, r') in
            if (0xD800 <=? hi) && (hi <=? 0xDBFF) then
              match r1 with
              | 92 :: 117 :: r2 =>
                  match hex4 r2 with
                  | Some (lo, r3) =>
                      if (0xDC00 <=? lo) && (lo <=? 0xDFFF) then
                        '(s, r') ← string_body rounds' r3;
                        Some (0x10000 + (hi - 0xD800) * 1024 + (lo - 0xDC00) :: s, r')
                      else lone
                  | None => lone
                  end
              | _ => lone
              end
            else lone
          else None
      | c :: r =>
          if c <? 32 then None
          else '(s, r') ← string_body rounds' r; Some (c :: s, r')
      end
  end.

(** A run of decimal digits: its value, its length, what follows. *)
Fixpoint digit_run (acc : Z) (len : nat) (t : str) : Z * nat * str :=
  match t with
  | c :: r =>
      if Py.is_digit c then digit_run (10 * acc + Py.digit_value c)%Z (S len) r
      else (acc, len, t)
  | [] => (acc, len, [])
  end.

(** A number: an optional minus, then [0] or a run of digits that does not
    start with [0], then optionally a point and digits, then optionally an
    exponent; the longest match.  An integer goes through [int], which
    refuses more than [Py.max_str_digits] digits. *)
Definition number (t : str) : option (pyobj * str) :=
  let '(negative, t0) :=
    match t with
    | 45 :: r => (true, r)
    | _ => (false, t)
    end in
  let signed (z : Z) : Z := if negative then (- z)%Z else z in
  '(whole, whole_len, t1) ←
    match t0 with
    | 48 :: r => Some (0%Z, 1%nat, r)
    | c :: r => if Py.is_digit c then Some (digit_run 0 0 t0) else None
    | [] => None
    end;
  let '(mantissa, frac_len, t2, has_frac) :=
    match t1 with
    | 46 :: r =>
        match digit_run whole 0 r with
        | (_, O, _) => (whole, O, t1, false)
        | (v, n, r') => (v, n, r', true)
        end
    | _ => (whole, O, t1, false)
    end in
  let exponent_of (r : str) (sign : Z) : option (Z * str) :=
    match digit_run 0 0 r with
    | (_, O, _) => None
    | (v, _, r') => Some ((sign * v)%Z, r')
    end in
  let exponent : option (Z * str) :=
    match t2 with
    | c :: r =>
        if (c =? 101) || (c =? 69) then
          match r with
          | 45 :: r' => exponent_of r' (-1)%Z
          | 43 :: r' => exponent_of r' 1%Z
          | _ => exponent_of r 1%Z
          end
        else None
    | [] => None
    end in
  match exponent with
  | Some (e, t3) => Some (PyFloat (signed mantissa) (e - Z.of_nat frac_len), t3)
  | None =>
      if has_frac then Some (PyFloat (signed mantissa) (- Z.of_nat frac_len), t2)
      else if bool_decide (whole_len ≤ Py.max_str_digits)%nat
           then Some (PyInt (signed whole), t2)
           else None
  end.

(** [literal word v t]: [v] when [t] starts with [word]. *)
Definition literal (word : string) (v : pyobj) (t : str) : option (pyobj * str) :=
  if Py.startswith (Py.u word) t
  then Some (v, drop (length (Py.u word)) t)
  else None.

Fixpoint value (rounds : nat) (t : str) : option (pyobj * str) :=
  match rounds with
  | O => None
  | S rounds' =>
      match t with
      | 34 :: r => '(s, r') ← string_body (length r) r; Some (PyStr s, r')
      | 123 :: r =>
          match skip_ws r with
          | 125 :: r' => Some (PyDict ∅, r')
          | r' => '(d, r'') ← members rounds' ∅ r'; Some (PyDict d, r'')
          end
      | 91 :: r =>
          match skip_ws r with
          | 93 :: r' => Some (PyList [], r')
          | r' => '(l, r'') ← elements rounds' r'; Some (PyList l, r'')
          end
      | _ =>
          literal "null" PyNone t ∪ literal "true" (PyBool true) t
          ∪ literal "false" (PyBool false) t ∪ literal "NaN" PyNaN t
          ∪ literal "Infinity" (PyInf false) t
          ∪ literal "-Infinity" (PyInf true) t ∪ number t
      end
  end
with members (rounds : nat) (acc : gmap str pyobj) (t : str)
  : option (gmap str pyobj * str) :=
  match rounds with
  | O => None
  | S rounds' =>
      match t with
      | 34 :: r =>
          '(key, r1) ← string_body (length r) r;
          match skip_ws r1 with
          | 58 :: r2 =>
              '(v, r3) ← value rounds' (skip_ws r2);
              let acc' := <[key := v]> acc in
              match skip_ws r3 with
              | 125 :: r4 => Some (acc', r4)
              | 44 :: r4 => members rounds' acc' (skip_ws r4)
              | _ => None
              end
          | _ => None
          end
      | _ => None
      end
  end
with elements (rounds : nat) (t : str) : option (list pyobj * str) :=
  match rounds with
  | O => None
  | S rounds' =>
      '(v, r) ← value rounds' t;
      match skip_ws r with
      | 93 :: r' => Some ([v], r')
      | 44 :: r' => '(vs, r'') ← elements rounds' (skip_ws r'); Some (v :: vs, r'')
      | _ => None
      end
  end.

(** [json.loads(bs)], [None] when it raises. *)
Definition loads (bs : bytes) : option pyobj :=
  let raw := map Byte.to_N bs in
  let raw := if Py.startswith [0xEF; 0xBB; 0xBF] raw then drop 3 raw else raw in
  text ← Py.decode_utf8 raw;
  '(v, rest) ← value (S (length text)) (skip_ws text);
  if bool_decide (skip_ws rest = []) then Some v else None.

End Json.

(** ** Reading a trace *)

#[global] Instance peer_eq_dec : EqDecision peer.
Proof. solve_decision. Defined.

Definition opposite (p : peer) : peer :=
  match p with
  | Client => Target
  | Target => Client
  end.

(** The chunks handed to [sendall] on the socket of [p], in order. *)
Definition sent_to (p : peer) (tr : list io_event) : list bytes :=
  omap (λ e, match e with
             | EvSend q data _ => if bool_decide (q = p) then Some data else None
             | _ => None
             end) tr.

(** The non-empty chunks [recv] returned on the socket of [p], in order. *)
Definition received_from (p : peer) (tr : list io_event) : list bytes :=
  omap (λ e, match e with
             | EvRecv q (Received (c :: data)) =>
                 if bool_decide (q = p) then Some (c :: data) else None
             | _ => None
             end) tr.

(** What the [recv] calls on the socket of [p] returned, in order: chunks,
    empty ones too, and errors. *)
Definition reads (p : peer) (tr : list io_event) : list recv_result :=
  omap (λ e, match e with
             | EvRecv q r => if bool_decide (q = p) then Some r else None
             | _ => None
             end) tr.

(** Whether the [sendall] calls on the socket of [p] succeeded, in order. *)
Definition write_outcomes (p : peer) (tr : list io_event) : list bool :=
  omap (λ e, match e with
             | EvSend q _ ok => if bool_decide (q = p) then Some ok else None
             | _ => None
             end) tr.

(** [seen] is what a script hands out call after call, from its first
    item on; a script that is used up hands out [closed]. *)
Definition follows {A} (closed : A) (script seen : list A) : Prop :=
  ∀ i x, seen !! i = Some x → x = nth i script closed.

(** The calls [tr] that lead from [w] to [w'] are played from the scripts
    of [w]: on each socket the reads return, and the writes meet, what the
    script of [w] holds, in order; [w'] keeps what is left of the scripts. *)
Definition scripted (w w' : world) (tr : list io_event) : Prop :=
  (∀ p, follows (Received []) (recv_script p w) (reads p tr)) ∧
  (∀ p, follows true (send_script p w) (write_outcomes p tr)) ∧
  (∀ p, recv_script p w' = drop (length (reads p tr)) (recv_script p w)) ∧
  (∀ p, send_script p w' = drop (length (write_outcomes p tr)) (send_script p w)) ∧
  dial w' = dial w.

(** A zero-length read or an I/O error. *)
Definition stops (e : io_event) : bool :=
  match e with
  | EvRecv _ (Received []) => true
  | EvRecv _ RecvFails => true
  | EvSend _ _ false => true
  | _ => false
  end.

Definition is_connect (e : io_event) : bool :=
  match e with
  | EvConnect _ _ _ => true
  | _ => false
  end.

(** How many times the handler dialled. *)
Definition dials (tr : list io_event) : nat :=
  length (filter (λ e, is_connect e = true) tr).

(** What one direction of the bounded relay does when [src] yields the
    chunks [chunks] and then a zero-length read, and every write succeeds:
    each chunk is read and written to [dst], then the empty read ends the
    loop. *)
Definition copied (src dst : peer) (chunks : list bytes) : list io_event :=
  flat_map (λ c, [EvRecv src (Received c); EvSend dst c true]) chunks
  ++ [EvRecv src (Received [])].

(** The runs of the streaming loop: a last turn that ends at a zero-length
    read or at an error, after any number of full turns. *)
Inductive streaming_run : list io_event → Prop :=
  | run_client_closed :
      streaming_run [EvRecv Client (Received [])]
  | run_client_fails :
      streaming_run [EvRecv Client RecvFails]
  | run_target_refuses data :
      data ≠ [] →
      streaming_run [EvRecv Client (Received data); EvSend Target data false]
  | run_target_closed data :
      data ≠ [] →
      streaming_run [EvRecv Client (Received data); EvSend Target data true;
                     EvRecv Target (Received [])]
  | run_target_fails data :
      data ≠ [] →
      streaming_run [EvRecv Client (Received data); EvSend Target data true;
                     EvRecv Target RecvFails]
  | run_client_refuses data response :
      data ≠ [] → response ≠ [] →
      streaming_run [EvRecv Client (Received data); EvSend Target data true;
                     EvRecv Target (Received response);
                     EvSend Client response false]
  | run_turn data response tr :
      data ≠ [] → response ≠ [] →
      streaming_run tr →
      streaming_run ([EvRecv Client (Received data); EvSend Target data true;
                      EvRecv Target (Received response);
                      EvSend Client response true] ++ tr).

(** A rule matches a parsed document when the document has the rule's
    field and its value is the rule's string. *)
Definition rule_matches (d : gmap str pyobj) (r : EndpointRule) : Prop :=
  d !! match_field r = Some (PyStr (match_value r)).

(** [sep] occurs in [s] for the first time right after [before]. *)
Definition first_split {A} (sep s before after : list A) : Prop :=
  s = before ++ sep ++ after ∧
  ∀ before' after', s = before' ++ sep ++ after' → length before ≤ length before'.

(** [sep] occurs in [s]. *)
Definition occurs {A} (sep s : list A) : Prop :=
  ∃ before after, s = before ++ sep ++ after.

(** ** A sample configuration

    The table of the repository's tests, and requests built from header
    lines and a body. *)

Module Sample.

(** No decimal digits beyond ASCII: the sample requests are ASCII. *)
Definition unicode_decimal : N → option N := λ _, None.

Definition rule1 : EndpointRule :=
  {| match_field := Py.u "field1"; match_value := Py.u "value1";
     target_host := Py.u "api1.example.com"; target_port := 80 |}.

Definition rule2 : EndpointRule :=
  {| match_field := Py.u "field2"; match_value := Py.u "value2";
     target_host := Py.u "api2.example.com"; target_port := 8080 |}.

Definition API_ENDPOINTS : list (str * EndpointRule) :=
  [ (Py.u "endpoint1", rule1); (Py.u "endpoint2", rule2) ].

(** A rule whose target host is the empty string, and the table that holds
    only this rule. *)
Definition blank_host_rule : EndpointRule :=
  {| match_field := Py.u "field1"; match_value := Py.u "value1";
     target_host := []; target_port := 80 |}.

Definition blank_host_table : list (str * EndpointRule) :=
  [ (Py.u "endpoint1", blank_host_rule) ].

(** A table of two rules that match the same documents; the one inserted
    first has the empty target host. *)
Definition blank_first_table : list (str * EndpointRule) :=
  [ (Py.u "endpoint1", blank_host_rule); (Py.u "endpoint2", rule1) ].

Definition quoted (s : string) : bytes := x22 :: Py.b s ++ [x22].

(** The JSON object with one string member, as bytes and parsed. *)
Definition body (field value : string) : bytes :=
  Py.b "{" ++ quoted field ++ Py.b ": " ++ quoted value ++ Py.b "}".

Definition document (field value : string) : gmap str pyobj :=
  {[ Py.u field := PyStr (Py.u value) ]}.

(** The parsed object with both sample fields. *)
Definition both_fields : gmap str pyobj :=
  <[ Py.u "field1" := PyStr (Py.u "value1") ]> (document "field2" "value2").

(** The JSON object with both sample fields, as bytes. *)
Definition both_fields_body : bytes :=
  Py.b "{" ++ quoted "field1" ++ Py.b ": " ++ quoted "value1" ++ Py.b ", "
  ++ quoted "field2" ++ Py.b ": " ++ quoted "value2" ++ Py.b "}".

(** Header lines, each closed by CRLF, and a request: the header block, a
    blank line, the payload. *)
Definition header_block (header_lines : list string) : bytes :=
  foldr (λ line rest, Py.b line ++ Py.CRLF ++ rest) [] header_lines.

Definition request (header_lines : list string) (payload : bytes) : bytes :=
  header_block header_lines ++ Py.CRLF ++ payload.

(** What [split] leaves as the header block: the lines without the CRLF of
    the last one. *)
Definition headers (header_lines : list string) : bytes :=
  take (length (header_block header_lines) - 2) (header_block header_lines).

Definition post : list string :=
  [ "POST /api/endpoint HTTP/1.1"; "Host: example.com:9090" ]%string.

Definition resolve (table : list (str * EndpointRule)) (data : bytes)
    (is_streaming : bool) : decision :=
  determine_target_endpoint unicode_decimal Json.loads table data is_streaming.

(** A connection whose client sends two chunks and closes, and whose
    backend answers with one chunk and closes. *)
Definition exchange : world :=
  World [Received (Py.b "ab"); Received (Py.b "c"); Received []]
        [Received (Py.b "xyz"); Received []] [] [] true [].

(** A connection whose request matches the first sample rule and whose
    backend refuses the dial. *)
Definition refused : world :=
  World [Received (request post (body "field1" "value1"))] [] [] [] false [].

End Sample.

(** ** Further readings of a trace *)

(** An I/O error: a read or a write that failed. *)
Definition fails (e : io_event) : bool :=
  match e with
  | EvRecv _ RecvFails => true
  | EvSend _ _ false => true
  | _ => false
  end.

(** A socket call of a copy from [src] to [dst]: a read on [src] or a write
    on [dst]. *)
Definition copies (src dst : peer) (e : io_event) : Prop :=
  match e with
  | EvRecv p _ => p = src
  | EvSend p _ _ => p = dst
  | _ => False
  end.

(** A read or a write, on either socket. *)
Definition is_transfer (e : io_event) : bool :=
  match e with
  | EvRecv _ _ | EvSend _ _ _ => true
  | _ => false
  end.

(** A read or a write on the socket of [p]. *)
Definition touches (p : peer) (e : io_event) : bool :=
  match e with
  | EvRecv q _ | EvSend q _ _ => bool_decide (q = p)
  | _ => false
  end.

Definition is_close (p : peer) (e : io_event) : bool :=
  match e with
  | EvClose q => bool_decide (q = p)
  | _ => false
  end.

(** How many times the socket of [p] was closed. *)
Definition closes (p : peer) (tr : list io_event) : nat :=
  length (filter (λ e, is_close p e = true) tr).

(** A decision holds a host and a port together, or neither. *)
Definition paired (d : decision) : Prop :=
  d = no_target ∨ ∃ host port, d = (Some host, Some port).

(** [sep.join(lines)] *)
Fixpoint py_join {A} (sep : list A) (lines : list (list A)) : list A :=
  match lines with
  | [] => []
  | [line] => line
  | line :: lines' => line ++ sep ++ py_join sep lines'
  end.

(** The text of a run of decimal digits and the number it denotes. *)
Definition decimal_text (ds : list N) : str := map (λ d, 48 + d)%N ds.

Definition decimal_value (ds : list N) : Z :=
  fold_left (λ acc d, 10 * acc + Z.of_N d)%Z ds 0%Z.

(** The text of a sign: a minus, or nothing. *)
Definition sign_text (negative : bool) : str := if negative then [45%N] else [].

(** The bytes of an ASCII text. *)
Definition ascii_bytes (s : str) : bytes :=
  map (λ c, default x00 (Byte.of_N c)) s.

(** The runs of the connection handler, by how far they get: the first
    read fails; the first read is empty or the request has no target; the
    dial fails; the dial succeeds, the first chunk is written to the
    target and a relay follows (nothing follows a failed write). *)
Inductive handler_run : list io_event → Prop :=
  | run_read_fails :
      handler_run [EvRecv Client RecvFails; EvClose Client]
  | run_no_target data :
      handler_run [EvRecv Client (Received data); EvClose Client; EvClose Client]
  | run_dial_fails data host port :
      handler_run [EvRecv Client (Received data); EvConnect host port false;
                   EvClose Target; EvClose Client]
  | run_relayed data host port ok evs :
      Forall (λ e, is_transfer e = true) evs →
      (ok = false → evs = []) →
      handler_run ([EvRecv Client (Received data); EvConnect host port true;
                    EvSend Target data ok]
                   ++ evs ++ [EvClose Target; EvClose Client]).

(** ** More sample connections *)

Module Cases.

(** A request with two Host lines, and a body that matches no sample
    rule. *)
Definition two_hosts : list bytes :=
  [ Py.b "POST /api/endpoint HTTP/1.1"; Py.b "Host: first.example:8000";
    Py.b "Host: second.example" ].

Definition two_hosts_request : bytes :=
  py_join Py.CRLF two_hosts ++ (Py.CRLF ++ Py.CRLF) ++ Sample.body "field1" "value2".

(** A request marked as chunked, whose body matches the first sample
    rule. *)
Definition chunked_request : bytes :=
  Sample.request
    [ "POST /stream HTTP/1.1"; "Transfer-Encoding: chunked" ]%string
    (Sample.body "field1" "value1").

Definition chunked : world :=
  World [Received chunked_request; Received (Py.b "5"); Received []]
        [Received (Py.b "ok"); Received []] [] [] true [].

(** A client that connects and closes without sending. *)
Definition silent : world := World [Received []] [] [] [] true [].

(** A routed exchange: the request, one more chunk and the end of the
    client's stream; the backend's answer in two chunks. *)
Definition routed : world :=
  World [Received (Sample.request Sample.post (Sample.body "field1" "value1"));
         Received (Py.b "tail"); Received []]
        [Received (Py.b "HTTP/1.1 200 OK"); Received (Py.b "done"); Received []]
        [] [] true [].

End Cases.

(** ** Proof steps *)

(** [scripted] for a few calls played from scripts whose first items are
    known. *)
Ltac read_script :=
  intros [] i v Hv;
  repeat (destruct i as [|i]; simplify_eq/=; try reflexivity).

Ltac play_script :=
  split_and!;
  [ read_script | read_script
  | intros []; reflexivity | intros []; reflexivity
  | reflexivity ].

(** * Facts about the built-ins *)

Section SequenceFacts.
Context {A : Type} `{!EqDecision A}.
Implicit Types sep s before after : list A.

Lemma startswith_prefix p s : Py.startswith p s = true ↔ ∃ k, s = p ++ k.
Proof.
  revert s; induction p as [|x p IH]; intros s; simpl.
  - split; eauto.
  - destruct s as [|y s]; simpl.
    + split; [done|]. intros [k Hk]. discriminate.
    + rewrite andb_true_iff, bool_decide_eq_true, IH. split.
      * intros [-> [k ->]]. eauto.
      * intros [k Hk]. injection Hk as -> ->. eauto.
Qed.

Lemma find_unfold sep s :
  Py.find sep s =
  if Py.startswith sep s then Some 0
  else match s with
       | [] => None
       | _ :: s' => S <$> Py.find sep s'
       end.
Proof. destruct s; reflexivity. Qed.

Lemma find_occurrence sep s i :
  Py.find sep s = Some i →
  s = take i s ++ sep ++ drop (i + length sep) s ∧ i + length sep ≤ length s.
Proof.
  revert i; induction s as [|x s IH]; intros i; rewrite find_unfold.
  - destruct (Py.startswith sep []) eqn:E; [|done].
    intros [= <-]. apply startswith_prefix in E as [k E].
    symmetry in E. apply app_eq_nil in E as [-> ->]. simpl. split; [done|lia].
  - destruct (Py.startswith sep (x :: s)) eqn:E.
    + intros [= <-]. apply startswith_prefix in E as [k E].
      rewrite E. cbn [take Nat.add app]. rewrite drop_app_length, length_app.
      split; [done|lia].
    + destruct (Py.find sep s) as [j|] eqn:F; [|done].
      intros [= <-]. destruct (IH j eq_refl) as [IH1 IH2].
      simpl. split; [by f_equal|lia].
Qed.

Lemma find_least sep s i before after :
  Py.find sep s = Some i → s = before ++ sep ++ after → i ≤ length before.
Proof.
  revert i before; induction s as [|x s IH]; intros i before; rewrite find_unfold.
  - destruct (Py.startswith sep []); [|done]. intros [= <-]. lia.
  - destruct (Py.startswith sep (x :: s)) eqn:E; [intros [= <-]; lia|].
    destruct (Py.find sep s) as [j|] eqn:F; [|done].
    intros [= <-] Hs. destruct before as [|y before].
    + exfalso. assert (Py.startswith sep (x :: s) = true) as E'; [|congruence].
      apply startswith_prefix. eauto.
    + injection Hs as -> ->. simpl. apply le_n_S. by eapply IH.
Qed.

Lemma find_None sep s : Py.find sep s = None → ¬ occurs sep s.
Proof.
  induction s as [|x s IH]; rewrite find_unfold.
  - destruct (Py.startswith sep []) eqn:E; [done|]. intros _ (before & after & Hs).
    symmetry in Hs. apply app_eq_nil in Hs as [-> Hs]. apply app_eq_nil in Hs as [-> ->].
    discriminate E.
  - destruct (Py.startswith sep (x :: s)) eqn:E; [done|].
    destruct (Py.find sep s) eqn:F; [done|]. intros _ (before & after & Hs).
    destruct before as [|y before].
    + assert (Py.startswith sep (x :: s) = true) as E'; [|congruence].
      apply startswith_prefix. eauto.
    + injection Hs as -> ->. apply IH; [done|]. by exists before, after.
Qed.

Lemma find_Some_occurs sep s i : Py.find sep s = Some i → occurs sep s.
Proof. intros [H _]%find_occurrence. rewrite H. by eexists _, _. Qed.

Lemma find_first_split sep s before after :
  first_split sep s before after → Py.find sep s = Some (length before).
Proof.
  intros [Hs Hleast]. destruct (Py.find sep s) as [i|] eqn:F.
  - f_equal. apply Nat.le_antisymm; [by eapply find_least|].
    apply find_occurrence in F as [F Hi]. specialize (Hleast _ _ F).
    rewrite length_take in Hleast. lia.
  - apply find_None in F. destruct F. by exists before, after.
Qed.

Lemma contains_occurs sep s : Py.contains sep s = true ↔ occurs sep s.
Proof.
  unfold Py.contains. destruct (Py.find sep s) eqn:F.
  - split; [|done]. intros _. by eapply find_Some_occurs.
  - split; [done|]. intros H. by apply find_None in F.
Qed.

End SequenceFacts.

Section SplitFacts.
Context {A : Type} `{!EqDecision A}.
Implicit Types sep s before after : list A.

Lemma find_nil_nonempty sep : sep ≠ [] → Py.find sep [] = None.
Proof. by destruct sep. Qed.

Lemma split_rounds_absent n sep s maxsplit :
  Py.find sep s = None → Py.split_rounds n sep s maxsplit = [s].
Proof. intros H. destruct n, maxsplit as [[|k]|]; simpl; by rewrite ?H. Qed.

Lemma split_rounds_stable sep :
  sep ≠ [] →
  ∀ n m s maxsplit, length s ≤ n → length s ≤ m →
    Py.split_rounds n sep s maxsplit = Py.split_rounds m sep s maxsplit.
Proof.
  intros Hsep. assert (0 < length sep) by (destruct sep; [done|simpl; lia]).
  induction n as [|n IH]; intros m s maxsplit Hn Hm.
  - destruct s; [|simpl in Hn; lia].
    by rewrite !split_rounds_absent by by apply find_nil_nonempty.
  - destruct m as [|m].
    { destruct s; [|simpl in Hm; lia].
      by rewrite !split_rounds_absent by by apply find_nil_nonempty. }
    simpl. destruct (Py.find sep s) as [i|] eqn:F; [|done].
    apply find_occurrence in F as [_ Hi].
    assert (length (drop (i + length sep) s) ≤ n) by (rewrite length_drop; lia).
    assert (length (drop (i + length sep) s) ≤ m) by (rewrite length_drop; lia).
    destruct maxsplit as [[|k]|]; [done|..]; f_equal; by apply IH.
Qed.

Lemma split_cut sep s i :
  sep ≠ [] → Py.find sep s = Some i →
  Py.split sep s None = take i s :: Py.split sep (drop (i + length sep) s) None.
Proof.
  intros Hsep F. unfold Py.split at 1.
  pose proof (find_occurrence _ _ _ F) as [_ Hi].
  assert (0 < length sep) by (destruct sep; [done|simpl; lia]).
  destruct (length s) as [|n] eqn:Hlen; [lia|]. simpl. rewrite F. f_equal.
  apply split_rounds_stable; [done| |done]. rewrite length_drop. lia.
Qed.

Lemma split_absent sep s maxsplit :
  ¬ occurs sep s → Py.split sep s maxsplit = [s].
Proof.
  intros H. apply split_rounds_absent. destruct (Py.find sep s) eqn:F; [|done].
  destruct H. by eapply find_Some_occurs.
Qed.

Lemma split_once sep s before after :
  sep ≠ [] → first_split sep s before after →
  Py.split sep s (Some 1) = [before; after].
Proof.
  intros Hsep Hfirst. pose proof (find_first_split _ _ _ _ Hfirst) as F.
  destruct Hfirst as [-> _]. unfold Py.split.
  assert (0 < length sep) by (destruct sep; [done|simpl; lia]).
  rewrite !length_app. destruct (_ + _) as [|n] eqn:Hlen; [lia|].
  simpl. rewrite F, take_app_length. f_equal.
  rewrite drop_app_add, drop_app_length. by destruct n.
Qed.

Lemma split_single_absent (c : A) s : c ∉ s → Py.split [c] s None = [s].
Proof.
  intros Hc. apply split_absent. intros (before & after & ->).
  apply Hc. set_solver.
Qed.

Lemma first_split_single (c : A) before after :
  c ∉ before → first_split [c] (before ++ c :: after) before after.
Proof.
  intros Hc. split; [done|]. intros before' after' Hs.
  destruct (decide (length before ≤ length before')) as [|Hlt]; [done|].
  exfalso. apply Hc.
  assert ((before ++ c :: after) !! length before' = Some c) as Hlook.
  { rewrite Hs. by rewrite lookup_app_r, Nat.sub_diag by done. }
  rewrite lookup_app_l in Hlook by lia. by eapply list_elem_of_lookup_2.
Qed.

Lemma split_single (c : A) before after :
  c ∉ before →
  Py.split [c] (before ++ c :: after) None = before :: Py.split [c] after None.
Proof.
  intros Hc. pose proof (find_first_split _ _ _ _ (first_split_single c _ after Hc)) as F.
  assert ([c] ≠ []) as Hsep by done.
  rewrite (split_cut _ _ _ Hsep F), take_app_length. f_equal. f_equal.
  change (c :: after) with ([c] ++ after).
  by rewrite drop_app_add, drop_app_length.
Qed.

End SplitFacts.

(** * The stream classifier *)

(** C2: [is_stream] is a total function from byte sequences to booleans,
    and it answers [true] exactly when the sequence contains the bytes
    [Transfer-Encoding: chunked], [false] exactly when it does not. *)
Theorem is_stream_iff_marker (data : bytes) :
  (is_stream data = true ↔ occurs (Py.b "Transfer-Encoding: chunked") data) ∧
  (is_stream data = false ↔ ¬ occurs (Py.b "Transfer-Encoding: chunked") data).
Proof.
  unfold is_stream. split; [apply contains_occurs|].
  rewrite <- contains_occurs. by destruct (Py.contains _ data).
Qed.

(** * The endpoint resolver *)

Lemma find_Some_first_split {A} `{!EqDecision A} (sep s : list A) i :
  Py.find sep s = Some i →
  first_split sep s (take i s) (drop (i + length sep) s).
Proof.
  intros F. pose proof (find_occurrence _ _ _ F) as [Hs Hi]. split; [done|].
  intros before' after' Hs'. rewrite length_take.
  pose proof (find_least _ _ _ _ _ F Hs'). lia.
Qed.

Section RoutingFacts.
Variable unicode_decimal : N → option N.
Variable json_loads : bytes → option pyobj.
Implicit Types table : list (str * EndpointRule).
Implicit Types d : gmap str pyobj.

Local Abbreviation resolve := (determine_target_endpoint unicode_decimal json_loads).
Local Abbreviation blank_line := (Py.CRLF ++ Py.CRLF).

Lemma py_eq_str_get d field value :
  py_eq_str (default PyNone (d !! field)) value = true ↔
  d !! field = Some (PyStr value).
Proof.
  destruct (d !! field) as [[]|]; simpl; try (split; [done|congruence]).
  rewrite bool_decide_eq_true. split; congruence.
Qed.

Lemma find_in_no_match table d :
  (∀ e, e ∈ table → ¬ rule_matches d e.2) →
  find_target_endpoint_in table (PyDict d) = Ok no_target.
Proof.
  induction table as [|[name rule] table IH]; intros Hno; [done|].
  simpl. destruct (py_eq_str _ _) eqn:E.
  - apply py_eq_str_get in E. destruct (Hno (name, rule)); [left|done].
  - apply IH. intros e He. apply Hno. by right.
Qed.

Lemma find_in_first_match before name rule after d :
  (∀ e, e ∈ before → ¬ rule_matches d e.2) →
  rule_matches d rule →
  find_target_endpoint_in (before ++ (name, rule) :: after) (PyDict d)
  = Ok (Some (target_host rule), Some (target_port rule)).
Proof.
  intros Hno Hyes. induction before as [|[name' rule'] before IH]; simpl.
  - apply py_eq_str_get in Hyes. by rewrite Hyes.
  - destruct (py_eq_str _ _) eqn:E.
    + apply py_eq_str_get in E. destruct (Hno (name', rule')); [left|done].
    + apply IH. intros e He. apply Hno. by right.
Qed.

Lemma find_in_not_dict table payload :
  (∀ d, payload ≠ PyDict d) → table ≠ [] →
  find_target_endpoint_in table payload = Raise AttributeError.
Proof.
  intros Hnot Htable. destruct table as [|[name rule] table]; [done|].
  simpl. destruct payload; try done. by destruct (Hnot d).
Qed.

(** What the regular path computes once the request has been cut at the
    blank line. *)
Lemma resolve_regular table data headers body :
  first_split blank_line data headers body →
  resolve table data false =
  match json_loads body with
  | None => no_target
  | Some payload =>
      match find_target_endpoint table payload with
      | Ok (target_host, target_port) =>
          if falsy target_host then parse_host_header unicode_decimal (host_line headers)
          else (target_host, target_port)
      | Raise _ => no_target
      end
  end.
Proof.
  intros Hcut. unfold determine_target_endpoint. simpl negb. cbv iota.
  assert (blank_line ≠ []) as Hsep by done.
  rewrite (split_once _ _ _ _ Hsep Hcut).
  destruct (json_loads body) as [payload|]; [|done]. simpl.
  destruct (parse_host_header _ _) as [original_host original_port].
  destruct (find_target_endpoint table payload) as [[target_host target_port]|]; [|done].
  simpl. by destruct (falsy target_host).
Qed.


(** C8: on the streaming path the resolver returns "none", whatever the
    bytes and the table. *)
Theorem resolve_streaming_none table (data : bytes) :
  resolve table data true = no_target.
Proof. reflexivity. Qed.

(** C6: on the regular path, when the request has no blank line (CRLF CRLF),
    or when what follows the first blank line is rejected by the JSON
    reader, the resolver returns "none"; it returns a decision and never
    raises. *)
Theorem resolve_malformed_none table (data : bytes) :
  (¬ occurs blank_line data ∨
   ∃ headers body, first_split blank_line data headers body ∧ json_loads body = None) →
  resolve table data false = no_target.
Proof.
  intros [Habsent|(headers & body & Hcut & Hbad)].
  - unfold determine_target_endpoint. simpl negb. cbv iota.
    by rewrite (split_absent _ _ _ Habsent).
  - by rewrite (resolve_regular _ _ _ _ Hcut), Hbad.
Qed.

(** C10: on the regular path, when the body is valid JSON but not an
    object, a table with at least one rule gives "none" and the Host
    header is not consulted; the empty table gives what the Host header
    gives. *)
Theorem resolve_non_object table (data headers body : bytes) (payload : pyobj) :
  first_split blank_line data headers body →
  json_loads body = Some payload →
  (∀ d, payload ≠ PyDict d) →
  (table ≠ [] → resolve table data false = no_target) ∧
  (table = [] →
   resolve table data false = parse_host_header unicode_decimal (host_line headers)).
Proof.
  intros Hcut Hload Hnot. rewrite (resolve_regular _ _ _ _ Hcut), Hload. split.
  - intros Htable. unfold find_target_endpoint.
    by rewrite (find_in_not_dict _ _ Hnot Htable).
  - by intros ->.
Qed.

(** C1, amended: on the regular path, when the request splits at its first
    blank line and the body is a JSON object, the table is tried in
    insertion order and the first rule whose field the object holds with
    the rule's value decides: its target is returned when its target host
    is not empty; when no rule matches, or when that rule's target host is
    empty, the host and port parsed from the Host header are returned. *)
Theorem resolve_first_match_or_host table (data headers body : bytes) d :
  first_split blank_line data headers body →
  json_loads body = Some (PyDict d) →
  (∀ before name rule after,
     table = before ++ (name, rule) :: after →
     (∀ e, e ∈ before → ¬ rule_matches d e.2) →
     rule_matches d rule →
     resolve table data false =
     if bool_decide (target_host rule = [])
     then parse_host_header unicode_decimal (host_line headers)
     else (Some (target_host rule), Some (target_port rule))) ∧
  ((∀ e, e ∈ table → ¬ rule_matches d e.2) →
   resolve table data false = parse_host_header unicode_decimal (host_line headers)).
Proof.
  intros Hcut Hload. rewrite (resolve_regular _ _ _ _ Hcut), Hload. split.
  - intros before name rule after -> Hno Hyes. unfold find_target_endpoint.
    rewrite (find_in_first_match _ _ _ _ _ Hno Hyes). simpl.
    by destruct (target_host rule).
  - intros Hno. unfold find_target_endpoint. by rewrite (find_in_no_match _ _ Hno).
Qed.

(** C7, amended: rules are tried in insertion order.  When two or more
    rules of the table match the payload, rule evaluation
    ([find_target_endpoint]) gives the target of the matching rule that was
    inserted first, and the resolver returns that target when its target
    host is not empty.  When the target host of that rule is empty, the
    resolver returns what the Host header gives: no later matching rule is
    consulted. *)
Theorem first_inserted_rule_decides table (data headers body : bytes) d
    before name1 rule1 between name2 rule2 after :
  table = before ++ (name1, rule1) :: between ++ (name2, rule2) :: after →
  (∀ e, e ∈ before → ¬ rule_matches d e.2) →
  rule_matches d rule1 →
  rule_matches d rule2 →
  first_split blank_line data headers body →
  json_loads body = Some (PyDict d) →
  find_target_endpoint table (PyDict d)
  = Ok (Some (target_host rule1), Some (target_port rule1)) ∧
  resolve table data false =
  if bool_decide (target_host rule1 = [])
  then parse_host_header unicode_decimal (host_line headers)
  else (Some (target_host rule1), Some (target_port rule1)).
Proof.
  intros -> Hno Hyes _ Hcut Hload.
  assert (find_target_endpoint
            (before ++ (name1, rule1) :: between ++ (name2, rule2) :: after) (PyDict d)
          = Ok (Some (target_host rule1), Some (target_port rule1))) as Hfind
    by (by apply find_in_first_match).
  split; [exact Hfind|].
  rewrite (resolve_regular _ _ _ _ Hcut), Hload, Hfind. simpl.
  by destruct (target_host rule1).
Qed.

End RoutingFacts.

(** * The Host header parser *)

Section HostHeaderFacts.
Variable unicode_decimal : N → option N.

Local Abbreviation parse := (parse_host_header unicode_decimal).
Local Abbreviation colon := 58%N.

Lemma parse_host_header_decoded (line : bytes) (text : str) :
  Py.decode line = Ok text →
  parse line =
  match Py.split [colon] text None with
  | _ :: host :: [] => (Some (Py.strip host), Some 80%Z)
  | _ :: host :: port :: _ =>
      match Py.int unicode_decimal (Py.strip port) with
      | Ok n => (Some (Py.strip host), Some n)
      | Raise _ => no_target
      end
  | _ => no_target
  end.
Proof.
  intros Hdecode. unfold parse_host_header. rewrite Hdecode. simpl.
  change (Py.u ":") with [colon].
  destruct (Py.split [colon] text None) as [|name [|host [|port rest]]]; try done.
  simpl. by destruct (Py.int _ _).
Qed.

(** C5, amended: the parser cuts the decoded line at its colons.  With one
    colon the second field, stripped, is the host and the port is 80; with
    two or more the third field, stripped, must read as an integer, which
    is the port, and the result is "none" when it does not: [int] refuses
    what is not a decimal integer and what has more than
    [Py.max_str_digits] digits.  A line with
    no colon (such as the empty line that stands for a missing Host
    header) and a line that is not UTF-8 give "none".  So
    [Host: example.com:9090] gives [("example.com", 9090)] and
    [Host: example.com] gives [("example.com", 80)].  An empty host field
    is returned as the empty host, not as "none". *)
Theorem parse_host_header_fields (line : bytes) :
  parse (Py.b "Host: example.com:9090") = (Some (Py.u "example.com"), Some 9090%Z) ∧
  parse (Py.b "Host: example.com") = (Some (Py.u "example.com"), Some 80%Z) ∧
  (Py.decode line = Raise UnicodeDecodeError → parse line = no_target) ∧
  ∀ text, Py.decode line = Ok text →
    (colon ∉ text → parse line = no_target) ∧
    (∀ name host,
       text = name ++ colon :: host → colon ∉ name → colon ∉ host →
       parse line = (Some (Py.strip host), Some 80%Z)) ∧
    (∀ name host port rest,
       text = name ++ colon :: host ++ colon :: port ++ rest →
       colon ∉ name → colon ∉ host → colon ∉ port →
       (rest = [] ∨ ∃ rest', rest = colon :: rest') →
       parse line =
       match Py.int unicode_decimal (Py.strip port) with
       | Ok n => (Some (Py.strip host), Some n)
       | Raise _ => no_target
       end).
Proof.
  split; [reflexivity|]. split; [reflexivity|]. split.
  { intros Hbad. unfold parse_host_header. by rewrite Hbad. }
  intros text Hdecode. rewrite (parse_host_header_decoded _ _ Hdecode).
  split; [|split].
  - intros Hfree. by rewrite split_single_absent.
  - intros name host -> Hname Hhost.
    by rewrite split_single, split_single_absent.
  - intros name host port rest -> Hname Hhost Hport Hrest.
    rewrite !split_single by done.
    destruct Hrest as [->|[rest' ->]].
    + by rewrite app_nil_r, split_single_absent.
    + rewrite split_single by done.
      by destruct (Py.split [colon] rest' None).
Qed.

End HostHeaderFacts.

(** * The bounded relay *)

Lemma hd_all_true (oks : list bool) :
  Forall (λ ok, ok = true) oks → hd true oks = true ∧ Forall (λ ok, ok = true) (tl oks).
Proof. intros [|ok oks' -> H]; by split. Qed.

Lemma copy_until_closed_run (src dst : peer) :
  src ≠ dst →
  ∀ (chunks : list bytes) (data : bytes) (w : world) after,
    data ≠ [] →
    Forall (λ c, c ≠ []) chunks →
    recv_script src w = map Received chunks ++ Received [] :: after →
    Forall (λ ok, ok = true) (send_script dst w) →
    ∃ w',
      (∀ rounds, length chunks < rounds →
         copy_until_closed rounds src dst data w = Done (Ok ()) w') ∧
      trace w' = trace w ++ EvSend dst data true :: copied src dst chunks ∧
      recv_script src w' = after ∧
      recv_script dst w' = recv_script dst w ∧
      send_script src w' = send_script src w ∧
      Forall (λ ok, ok = true) (send_script dst w') ∧
      dial w' = dial w.
Proof.
  intros Hneq chunks. induction chunks as [|c chunks IH];
    intros data w after Hdata Hchunks Hrecv Hsend;
    destruct data as [|x data]; try done;
    apply hd_all_true in Hsend as [Hok Hsend].
  - exists (log (EvRecv src (Received []))
              (set_recv_script src after
                 (log (EvSend dst (x :: data) true)
                    (set_send_script dst (tl (send_script dst w)) w)))).
    split.
    { intros [|rounds] ?; [lia|]. cbn [copy_until_closed empty].
      unfold io_bind, sendall, recv. rewrite Hok.
      destruct src, dst; try done; destruct w; simpl in *; subst;
        simpl; by destruct rounds. }
    destruct src, dst; try done; destruct w; simpl in *; subst; simpl;
      by rewrite <- app_assoc.
  - apply Forall_cons in Hchunks as [Hc Hchunks].
    set (w1 := log (EvRecv src (Received c))
                 (set_recv_script src (map Received chunks ++ Received [] :: after)
                    (log (EvSend dst (x :: data) true)
                       (set_send_script dst (tl (send_script dst w)) w)))).
    destruct (IH c w1 after Hc Hchunks)
      as (w' & Hrun & Htrace & Hsrc & Hdst & Hsend' & Hoks & Hdial).
    { subst w1. destruct src, dst; try done; destruct w; reflexivity. }
    { subst w1. destruct src, dst; try done; destruct w; simpl in *; done. }
    exists w'. split; [|split; [|split; [|split; [|split; [|split]]]]].
    + intros [|rounds] ?; [simpl in *; lia|]. cbn [copy_until_closed empty].
      rewrite <- (Hrun rounds) by (simpl in *; lia).
      unfold io_bind, sendall, recv. rewrite Hok.
      subst w1. destruct src, dst; try done; destruct w; simpl in *; subst; done.
    + rewrite Htrace. subst w1.
      destruct src, dst; try done; destruct w; simpl; by rewrite <- !app_assoc.
    + done.
    + rewrite Hdst. subst w1. destruct src, dst; try done; by destruct w.
    + rewrite Hsend'. subst w1. destruct src, dst; try done; by destruct w.
    + done.
    + rewrite Hdial. subst w1. destruct src, dst; try done; by destruct w.
Qed.

Lemma io_bind_assoc {A B C} (m : IO A) (k : A → IO B) (k' : B → IO C) (w : world) :
  io_bind (io_bind m k) k' w = io_bind m (λ a, io_bind (k a) k') w.
Proof. unfold io_bind. by destruct (m w) as [[a|e] w1|]. Qed.

(** One direction of the bounded relay: the first [recv] and the loop. *)
Lemma relay_direction_run (src dst : peer) (chunks : list bytes) (w : world) after :
  src ≠ dst →
  Forall (λ c, c ≠ []) chunks →
  recv_script src w = map Received chunks ++ Received [] :: after →
  Forall (λ ok, ok = true) (send_script dst w) →
  ∃ w',
    (∀ rounds, length chunks ≤ rounds →
       io_bind (recv src) (copy_until_closed rounds src dst) w = Done (Ok ()) w') ∧
    trace w' = trace w ++ copied src dst chunks ∧
    recv_script src w' = after ∧
    recv_script dst w' = recv_script dst w ∧
    send_script src w' = send_script src w ∧
    Forall (λ ok, ok = true) (send_script dst w') ∧
    dial w' = dial w.
Proof.
  intros Hneq Hchunks Hrecv Hsend. destruct chunks as [|c chunks].
  - exists (log (EvRecv src (Received [])) (set_recv_script src after w)).
    split.
    { intros rounds _. unfold io_bind, recv. rewrite Hrecv. simpl.
      by destruct rounds. }
    destruct src, dst; try done; destruct w; simpl in *; by subst.
  - apply Forall_cons in Hchunks as [Hc Hchunks].
    set (w1 := log (EvRecv src (Received c))
                 (set_recv_script src (map Received chunks ++ Received [] :: after) w)).
    destruct (copy_until_closed_run src dst Hneq chunks c w1 after Hc Hchunks)
      as (w' & Hrun & Htrace & Hsrc & Hdst & Hsend' & Hoks & Hdial).
    { subst w1. destruct src, dst; try done; destruct w; reflexivity. }
    { subst w1. destruct src, dst; try done; destruct w; simpl in *; done. }
    exists w'. split; [|split; [|split; [|split; [|split; [|split]]]]].
    + intros rounds Hrounds. rewrite <- (Hrun rounds) by (simpl in *; lia).
      unfold io_bind, recv. rewrite Hrecv. reflexivity.
    + rewrite Htrace. subst w1.
      destruct src, dst; try done; destruct w; simpl; by rewrite <- !app_assoc.
    + done.
    + rewrite Hdst. subst w1. destruct src, dst; try done; by destruct w.
    + rewrite Hsend'. subst w1. destruct src, dst; try done; by destruct w.
    + done.
    + rewrite Hdial. subst w1. destruct src, dst; try done; by destruct w.
Qed.

Lemma sent_to_app (p : peer) (tr1 tr2 : list io_event) :
  sent_to p (tr1 ++ tr2) = sent_to p tr1 ++ sent_to p tr2.
Proof. apply omap_app. Qed.

Lemma sent_to_copied_dst (src dst : peer) (chunks : list bytes) :
  sent_to dst (copied src dst chunks) = chunks.
Proof.
  unfold copied. rewrite sent_to_app, app_nil_r.
  induction chunks as [|c chunks IH]; [done|].
  simpl. rewrite bool_decide_eq_true_2 by done. by f_equal.
Qed.

Lemma sent_to_copied_src (src dst : peer) (chunks : list bytes) :
  src ≠ dst → sent_to src (copied src dst chunks) = [].
Proof.
  intros Hneq. unfold copied. rewrite sent_to_app, app_nil_r.
  induction chunks as [|c chunks IH]; [done|].
  simpl. by rewrite bool_decide_eq_false_2.
Qed.

Lemma copied_sends_to_dst (src dst p : peer) (chunks : list bytes) i data ok :
  copied src dst chunks !! i = Some (EvSend p data ok) → p = dst.
Proof.
  intros Hi%list_elem_of_lookup_2. unfold copied in Hi.
  apply elem_of_app in Hi as [Hi|Hi].
  - apply list_elem_of_In, in_flat_map in Hi as (c & _ & [Hc|[Hc|[]]]); congruence.
  - apply list_elem_of_singleton in Hi. congruence.
Qed.

(** C3: when the client yields the chunks [cs] and then a zero-length read,
    the backend yields the chunks [ts] and then a zero-length read, and no
    write fails, the bounded relay returns; the backend was sent exactly
    the client's chunks and the client exactly the backend's, in their
    order, and every write to the backend comes before every write to the
    client. *)
Theorem bounded_relay_half_duplex (w : world) (cs ts : list bytes) rest_c rest_t :
  client_recv w = map Received cs ++ Received [] :: rest_c →
  target_recv w = map Received ts ++ Received [] :: rest_t →
  Forall (λ c, c ≠ []) cs →
  Forall (λ c, c ≠ []) ts →
  Forall (λ ok, ok = true) (client_send w) →
  Forall (λ ok, ok = true) (target_send w) →
  ∃ w' tr,
    (∀ rounds, length cs ≤ rounds → length ts ≤ rounds →
       handle_regular_http rounds w = Done (Ok ()) w') ∧
    trace w' = trace w ++ tr ∧
    tr = copied Client Target cs ++ copied Target Client ts ∧
    sent_to Target tr = cs ∧
    sent_to Client tr = ts ∧
    concat (sent_to Target tr) = concat cs ∧
    concat (sent_to Client tr) = concat ts ∧
    (∀ i j a b oka okb,
       tr !! i = Some (EvSend Target a oka) →
       tr !! j = Some (EvSend Client b okb) →
       i < j).
Proof.
  intros Hc Ht Hcs Hts Hcok Htok.
  destruct (relay_direction_run Client Target cs w rest_c)
    as (w1 & Hrun1 & Htrace1 & _ & Htarget1 & Hcsend1 & _ & _); try done.
  destruct (relay_direction_run Target Client ts w1 rest_t)
    as (w2 & Hrun2 & Htrace2 & _); try done.
  { by rewrite Htarget1. }
  { by rewrite Hcsend1. }
  assert (sent_to Target (copied Client Target cs ++ copied Target Client ts) = cs) as HT.
  { by rewrite sent_to_app, sent_to_copied_dst, sent_to_copied_src, app_nil_r. }
  assert (sent_to Client (copied Client Target cs ++ copied Target Client ts) = ts) as HC.
  { by rewrite sent_to_app, sent_to_copied_dst, sent_to_copied_src. }
  exists w2, (copied Client Target cs ++ copied Target Client ts).
  split; [|split; [|split; [done|split; [done|split; [done|split; [|split]]]]]].
  - intros rounds Hr1 Hr2. unfold handle_regular_http.
    rewrite <- io_bind_assoc.
    unfold io_bind at 1. rewrite (Hrun1 rounds Hr1). by apply Hrun2.
  - by rewrite Htrace2, Htrace1, app_assoc.
  - by rewrite HT.
  - by rewrite HC.
  - intros i j a b oka okb Hi Hj.
    destruct (decide (i < length (copied Client Target cs))) as [Hlt|Hge].
    + destruct (decide (j < length (copied Client Target cs))) as [Hjlt|]; [|lia].
      rewrite lookup_app_l in Hj by done. by apply copied_sends_to_dst in Hj.
    + rewrite lookup_app_r in Hi by lia. by apply copied_sends_to_dst in Hi.
Qed.

(** * The streaming relay *)

(** ** Scripts *)

Lemma nth_drop {A} (closed : A) (n i : nat) (l : list A) :
  nth i (drop n l) closed = nth (n + i) l closed.
Proof.
  revert l. induction n as [|n IH]; intros l; [done|].
  destruct l as [|x l]; [by destruct i|]. apply IH.
Qed.

Lemma follows_app {A} (closed : A) (script seen1 seen2 : list A) :
  follows closed script seen1 →
  follows closed (drop (length seen1) script) seen2 →
  follows closed script (seen1 ++ seen2).
Proof.
  intros H1 H2 i x [Hi|[Hlen Hi]]%lookup_app_Some; [by apply H1|].
  rewrite (H2 _ _ Hi), nth_drop. f_equal. lia.
Qed.

Lemma reads_app (p : peer) (tr1 tr2 : list io_event) :
  reads p (tr1 ++ tr2) = reads p tr1 ++ reads p tr2.
Proof. apply omap_app. Qed.

Lemma write_outcomes_app (p : peer) (tr1 tr2 : list io_event) :
  write_outcomes p (tr1 ++ tr2) = write_outcomes p tr1 ++ write_outcomes p tr2.
Proof. apply omap_app. Qed.

(** Calls played from the scripts, followed by calls played from what they
    left. *)
Lemma scripted_trans (w w1 w2 : world) (tr1 tr2 : list io_event) :
  scripted w w1 tr1 → scripted w1 w2 tr2 → scripted w w2 (tr1 ++ tr2).
Proof.
  intros (Hr1 & Hs1 & Hrl1 & Hsl1 & Hd1) (Hr2 & Hs2 & Hrl2 & Hsl2 & Hd2).
  split_and!.
  - intros p. rewrite reads_app. apply follows_app; [done|].
    rewrite <- Hrl1. apply Hr2.
  - intros p. rewrite write_outcomes_app. apply follows_app; [done|].
    rewrite <- Hsl1. apply Hs2.
  - intros p. by rewrite Hrl2, Hrl1, drop_drop, reads_app, length_app.
  - intros p. by rewrite Hsl2, Hsl1, drop_drop, write_outcomes_app, length_app.
  - congruence.
Qed.

(** One turn of the loop: it returns normally, either breaking after one
    of the six ways a turn can end, or after a full exchange, which used
    up one item of the client's script.  Its calls are played from the
    scripts. *)
Lemma streaming_round_cases (w : world) :
  ∃ again w1 evs,
    streaming_round w = Done (Ok again) w1 ∧
    trace w1 = trace w ++ evs ∧
    scripted w w1 evs ∧
    ((again = false ∧ streaming_run evs) ∨
     (again = true ∧ length (client_recv w1) < length (client_recv w) ∧
      ∃ data response,
        data ≠ [] ∧ response ≠ [] ∧
        evs = [EvRecv Client (Received data); EvSend Target data true;
               EvRecv Target (Received response); EvSend Client response true])).
Proof.
  destruct w as [cr tr cs ts dl t].
  destruct cr as [|[[|x data]|] cr].
  1-2: by (eexists false, _, _; split; [reflexivity|]; split; [reflexivity|];
           split; [play_script|]; left; split; [done|constructor]).
  2: by (eexists false, _, _; split; [reflexivity|]; split; [reflexivity|];
         split; [play_script|]; left; split; [done|constructor]).
  destruct ts as [|[] ts].
  3: by (eexists false, _, _; split; [reflexivity|]; split;
           [simpl; by rewrite <- app_assoc|]; split; [play_script|];
           left; split; [done|by constructor]).
  all: destruct tr as [|[[|y response]|] tr].
  all: try by (eexists false, _, _; split; [reflexivity|]; split;
                 [simpl; by rewrite <- !app_assoc|]; split; [play_script|];
                 left; split; [done|by constructor]).
  all: destruct cs as [|[] cs].
  all: try by (eexists false, _, _; split; [reflexivity|]; split;
                 [simpl; by rewrite <- !app_assoc|]; split; [play_script|];
                 left; split; [done|by constructor]).
  all: eexists true, _, _; split; [reflexivity|]; split;
         [simpl; by rewrite <- !app_assoc|]; split; [play_script|];
         right; split; [done|]; split;
         [simpl; lia|]; by exists (x :: data), (y :: response).
Qed.

(** The loop returns once it has enough rounds for the client's script; its
    calls are played from the scripts and make a run of the loop. *)
Lemma streaming_runs_scripted (n : nat) :
  ∀ w, length (client_recv w) ≤ n →
    ∃ w' tr,
      (∀ rounds, length (client_recv w) < rounds →
         handle_streaming rounds w = Done (Ok ()) w') ∧
      trace w' = trace w ++ tr ∧
      scripted w w' tr ∧
      streaming_run tr.
Proof.
  induction n as [|n IH]; intros w Hn;
    destruct (streaming_round_cases w)
      as (again & w1 & evs & Hround & Htrace & Hplay
          & [[-> Hrun]|(-> & Hlen & Hturn)]).
  - exists w1, evs. split; [|done].
    intros [|rounds] ?; [lia|]. simpl. unfold io_bind. by rewrite Hround.
  - lia.
  - exists w1, evs. split; [|done].
    intros [|rounds] ?; [lia|]. simpl. unfold io_bind. by rewrite Hround.
  - destruct (IH w1) as (w' & tr & Hrest & Htrace' & Hplay' & Hrun); [lia|].
    destruct Hturn as (data & response & Hdata & Hresponse & ->).
    exists w', ([EvRecv Client (Received data); EvSend Target data true;
                 EvRecv Target (Received response); EvSend Client response true] ++ tr).
    split; [|split; [|split]].
    + intros [|rounds] ?; [lia|]. simpl. unfold io_bind. rewrite Hround.
      apply Hrest. lia.
    + by rewrite Htrace', Htrace, <- app_assoc.
    + by eapply scripted_trans.
    + by constructor.
Qed.

Lemma streaming_runs (n : nat) :
  ∀ w, length (client_recv w) ≤ n →
    ∃ w' tr,
      (∀ rounds, length (client_recv w) < rounds →
         handle_streaming rounds w = Done (Ok ()) w') ∧
      trace w' = trace w ++ tr ∧
      streaming_run tr.
Proof.
  intros w Hn.
  destruct (streaming_runs_scripted n w Hn) as (w' & tr & Hrun & Htrace & _ & Hshape).
  by exists w', tr.
Qed.

(** A run starts with a read on the client, and a read on a side follows
    every write to it that succeeded. *)
Lemma streaming_run_starts (tr : list io_event) :
  streaming_run tr → ∃ r, head tr = Some (EvRecv Client r).
Proof. destruct 1; by eexists. Qed.

Lemma streaming_run_turns (tr : list io_event) :
  streaming_run tr →
  ∀ i p data,
    tr !! i = Some (EvSend p data true) →
    ∃ r, tr !! S i = Some (EvRecv p r).
Proof.
  induction 1 as [| |data Hd|data Hd|data Hd|data response Hd Hr
                 |data response tr Hd Hr Hrun IH];
    intros i p chunk Hi.
  1-6: repeat (destruct i as [|i]; simplify_eq/=; eauto).
  destruct i as [|[|[|[|i]]]]; simplify_eq/=; eauto.
  destruct (streaming_run_starts tr Hrun) as [r Hr'].
  exists r. by destruct tr; simplify_eq/=.
Qed.

Lemma received_from_app (p : peer) (tr1 tr2 : list io_event) :
  received_from p (tr1 ++ tr2) = received_from p tr1 ++ received_from p tr2.
Proof. apply omap_app. Qed.

(** In a run of the streaming loop, what is written to one side is what was
    read, non-empty, from the other. *)
Lemma streaming_run_forwards (tr : list io_event) :
  streaming_run tr →
  sent_to Target tr = received_from Client tr ∧
  sent_to Client tr = received_from Target tr.
Proof.
  induction 1 as [| |data Hd|data Hd|data Hd|data response Hd Hr
                 |data response tr Hd Hr Hrun [IHt IHc]];
    try destruct data as [|x data]; try done;
    try destruct response as [|y response]; try done.
  rewrite !sent_to_app, !received_from_app, IHt, IHc. done.
Qed.

(** Every non-empty chunk read is written to the other side by the very
    next call. *)
Lemma streaming_run_at_once (tr : list io_event) :
  streaming_run tr →
  ∀ i p data,
    tr !! i = Some (EvRecv p (Received data)) → data ≠ [] →
    ∃ ok, tr !! S i = Some (EvSend (opposite p) data ok).
Proof.
  induction 1 as [| |data Hd|data Hd|data Hd|data response Hd Hr
                 |data response tr Hd Hr Hrun IH];
    intros i p chunk Hi Hchunk.
  1-6: repeat (destruct i as [|i]; simplify_eq/=; eauto).
  destruct i as [|[|[|[|i]]]]; simplify_eq/=; eauto.
Qed.

(** A run ends with a zero-length read or an error, and has none before
    its end. *)
Lemma streaming_run_stops (tr : list io_event) :
  streaming_run tr →
  (∃ e, last tr = Some e ∧ stops e = true) ∧
  (∀ i e, tr !! i = Some e → stops e = true → S i = length tr).
Proof.
  induction 1 as [| |data Hd|data Hd|data Hd|data response Hd Hr
                 |data response tr Hd Hr Hrun [[e [IHlast IHe]] IHonly]];
    try destruct data as [|x data]; try done;
    try destruct response as [|y response]; try done.
  1-6: split; [by eexists|];
       intros i e Hi He; repeat (destruct i as [|i]; simplify_eq/=; eauto).
  split.
  - exists e. split; [|done]. destruct tr; [done|]. exact IHlast.
  - intros i e' Hi He'. destruct i as [|[|[|[|i]]]]; simplify_eq/=.
    f_equal. f_equal. f_equal. f_equal. by eapply IHonly.
Qed.

(** C4: the streaming relay returns, and its run is the one the two sides
    script.  The reads on each socket return the items of that socket's
    script in order (the empty bytes once it is used up), the writes meet
    the scripted outcomes, and the world keeps what the run left unread.
    The run starts with a read on the client; each non-empty chunk read
    from one side is handed to the other side by the very next socket call,
    and a read on that other side follows a write that succeeded, so the
    writes to each side are the non-empty reads from the other, in order.
    The run ends at its first zero-length read or I/O error, and no socket
    call follows it. *)
Theorem streaming_relay_forwards_and_stops (w : world) :
  ∃ w' tr,
    (∀ rounds, length (client_recv w) < rounds →
       handle_streaming rounds w = Done (Ok ()) w') ∧
    trace w' = trace w ++ tr ∧
    (∀ p, follows (Received []) (recv_script p w) (reads p tr)) ∧
    (∀ p, follows true (send_script p w) (write_outcomes p tr)) ∧
    (∀ p, recv_script p w' = drop (length (reads p tr)) (recv_script p w)) ∧
    (∀ p, send_script p w' = drop (length (write_outcomes p tr)) (send_script p w)) ∧
    dial w' = dial w ∧
    (∃ r, head tr = Some (EvRecv Client r)) ∧
    (∀ i p data,
       tr !! i = Some (EvSend p data true) →
       ∃ r, tr !! S i = Some (EvRecv p r)) ∧
    sent_to Target tr = received_from Client tr ∧
    sent_to Client tr = received_from Target tr ∧
    (∀ i p data,
       tr !! i = Some (EvRecv p (Received data)) → data ≠ [] →
       ∃ ok, tr !! S i = Some (EvSend (opposite p) data ok)) ∧
    (∃ e, last tr = Some e ∧ stops e = true) ∧
    (∀ i e, tr !! i = Some e → stops e = true → S i = length tr).
Proof.
  destruct (streaming_runs_scripted (length (client_recv w)) w)
    as (w' & tr & Hrun & Htrace & Hplay & Hshape); [done|].
  destruct Hplay as (Hreads & Hwrites & Hunread & Hunmet & Hdial).
  exists w', tr. do 7 (split; [done|]).
  split; [by apply streaming_run_starts|].
  split; [by apply streaming_run_turns|].
  destruct (streaming_run_forwards tr Hshape) as [Ht Hc].
  destruct (streaming_run_stops tr Hshape) as [Hlast Honly].
  split; [done|]. split; [done|]. split; [|done].
  by apply streaming_run_at_once.
Qed.

(** * The connection handler *)

(** C9: when the target resolves and the dial fails, the handler dials
    once, sends nothing to either side, closes the client socket and
    returns normally: the failure stays inside the handler. *)
Theorem dial_failure_closes_client (unicode_decimal : N → option N)
    (json_loads : bytes → option pyobj) (table : list (str * EndpointRule))
    (w : world) (rounds : nat) (data : bytes) rest (host : str) (port : Z) :
  client_recv w = Received data :: rest →
  data ≠ [] →
  determine_target_endpoint unicode_decimal json_loads table data (is_stream data)
  = (Some host, Some port) →
  host ≠ [] →
  dial w = false →
  ∃ w' tr,
    handle_client unicode_decimal json_loads table rounds w = Done (Ok ()) w' ∧
    trace w' = trace w ++ tr ∧
    tr = [EvRecv Client (Received data); EvConnect host port false;
          EvClose Target; EvClose Client] ∧
    sent_to Client tr = [] ∧ sent_to Target tr = [] ∧
    dials tr = 1 ∧
    last tr = Some (EvClose Client).
Proof.
  intros Hrecv Hdata Htarget Hhost Hdial.
  destruct w as [cr tr cs ts dl t]. simpl in Hrecv, Hdial. subst cr dl.
  destruct data as [|c data]; [done|]. destruct host as [|h host]; [done|].
  eexists _, _. split; [|split; [|split; [reflexivity|]]].
  - unfold handle_client, try_finally, try_except, io_bind. simpl.
    rewrite Htarget. simpl. reflexivity.
  - simpl. by rewrite <- !app_assoc.
  - done.
Qed.

(** * Closed examples on the sample configuration *)

Lemma sample_request_cut (payload : bytes) :
  first_split (Py.CRLF ++ Py.CRLF) (Sample.request Sample.post payload)
    (Sample.headers Sample.post) payload.
Proof.
  apply (find_Some_first_split (Py.CRLF ++ Py.CRLF)
           (Sample.request Sample.post payload) 51).
  vm_compute. reflexivity.
Qed.

(** C1 as stated fails: the only rule of the table matches the body, yet
    the resolver returns the Host header's host and port, not the rule's
    target, because the rule's target host is the empty string. *)
Lemma resolve_blank_host_counterexample :
  let data := Sample.request Sample.post (Sample.body "field1" "value1") in
  ∃ headers body d name rule,
    first_split (Py.CRLF ++ Py.CRLF) data headers body ∧
    Json.loads body = Some (PyDict d) ∧
    Sample.blank_host_table = [(name, rule)] ∧
    rule_matches d rule ∧
    Sample.resolve Sample.blank_host_table data false
    = (Some (Py.u "example.com"), Some 9090%Z) ∧
    Sample.resolve Sample.blank_host_table data false
    ≠ (Some (target_host rule), Some (target_port rule)).
Proof.
  exists (Sample.headers Sample.post), (Sample.body "field1" "value1"),
    (Sample.document "field1" "value1"), (Py.u "endpoint1"), Sample.blank_host_rule.
  split; [apply sample_request_cut|].
  split; [vm_compute; reflexivity|].
  split; [reflexivity|].
  split; [vm_compute; reflexivity|].
  split; [vm_compute; reflexivity|].
  vm_compute. discriminate.
Qed.

(** The amended C1 at work: the second rule of the sample table is the
    first that matches a body with [field2], and a body that matches no
    rule is routed by its Host header. *)
Lemma resolve_first_match_or_host_witness :
  Sample.resolve Sample.API_ENDPOINTS
    (Sample.request Sample.post (Sample.body "field2" "value2")) false
  = (Some (Py.u "api2.example.com"), Some 8080%Z) ∧
  Sample.resolve Sample.API_ENDPOINTS
    (Sample.request Sample.post (Sample.body "field1" "value2")) false
  = (Some (Py.u "example.com"), Some 9090%Z).
Proof.
  split.
  - assert (Json.loads (Sample.body "field2" "value2")
            = Some (PyDict (Sample.document "field2" "value2"))) as Hload
      by (vm_compute; reflexivity).
    destruct (resolve_first_match_or_host Sample.unicode_decimal Json.loads
                Sample.API_ENDPOINTS _ _ _ _ (sample_request_cut _) Hload)
      as [Hfirst _].
    apply (Hfirst [(Py.u "endpoint1", Sample.rule1)] (Py.u "endpoint2")
             Sample.rule2 []).
    + reflexivity.
    + intros e ->%list_elem_of_singleton. vm_compute. discriminate.
    + vm_compute. reflexivity.
  - assert (Json.loads (Sample.body "field1" "value2")
            = Some (PyDict (Sample.document "field1" "value2"))) as Hload
      by (vm_compute; reflexivity).
    destruct (resolve_first_match_or_host Sample.unicode_decimal Json.loads
                Sample.API_ENDPOINTS _ _ _ _ (sample_request_cut _) Hload)
      as [_ Hnone].
    unfold Sample.resolve. rewrite Hnone; [vm_compute; reflexivity|].
    intros e He. repeat (apply elem_of_cons in He as [->|He]);
      [vm_compute; discriminate ..|by apply elem_of_nil in He].
Defined.

(** C7 as stated fails: both rules of the table match the body, yet the
    resolver returns the Host header's host and port and not the target of
    the rule inserted first, whose target host is the empty string. *)
Lemma first_rule_blank_host_counterexample :
  let data := Sample.request Sample.post (Sample.body "field1" "value1") in
  ∃ headers body d name1 rule1 name2 rule2,
    first_split (Py.CRLF ++ Py.CRLF) data headers body ∧
    Json.loads body = Some (PyDict d) ∧
    Sample.blank_first_table = [(name1, rule1); (name2, rule2)] ∧
    rule_matches d rule1 ∧
    rule_matches d rule2 ∧
    Sample.resolve Sample.blank_first_table data false
    = (Some (Py.u "example.com"), Some 9090%Z) ∧
    Sample.resolve Sample.blank_first_table data false
    ≠ (Some (target_host rule1), Some (target_port rule1)).
Proof.
  exists (Sample.headers Sample.post), (Sample.body "field1" "value1"),
    (Sample.document "field1" "value1"),
    (Py.u "endpoint1"), Sample.blank_host_rule, (Py.u "endpoint2"), Sample.rule1.
  split; [apply sample_request_cut|].
  split; [vm_compute; reflexivity|].
  split; [reflexivity|].
  split; [vm_compute; reflexivity|].
  split; [vm_compute; reflexivity|].
  split; [vm_compute; reflexivity|].
  vm_compute. discriminate.
Qed.

(** The amended C7 at work: a body with both sample fields matches both
    rules of the sample table, and the rule inserted first decides. *)
Lemma first_inserted_rule_decides_witness :
  find_target_endpoint Sample.API_ENDPOINTS (PyDict Sample.both_fields)
  = Ok (Some (Py.u "api1.example.com"), Some 80%Z) ∧
  Sample.resolve Sample.API_ENDPOINTS
    (Sample.request Sample.post Sample.both_fields_body) false
  = (Some (Py.u "api1.example.com"), Some 80%Z).
Proof.
  apply (first_inserted_rule_decides Sample.unicode_decimal Json.loads
           Sample.API_ENDPOINTS
           (Sample.request Sample.post Sample.both_fields_body)
           (Sample.headers Sample.post) Sample.both_fields_body Sample.both_fields
           [] (Py.u "endpoint1") Sample.rule1 [] (Py.u "endpoint2") Sample.rule2 []).
  - reflexivity.
  - intros e He. by apply elem_of_nil in He.
  - vm_compute. reflexivity.
  - vm_compute. reflexivity.
  - apply sample_request_cut.
  - vm_compute. reflexivity.
Defined.

(** With the first rule's target host empty, the same body is routed by
    the Host header although the second rule matches it too. *)
Example blank_first_rule_falls_back :
  Sample.resolve Sample.blank_first_table
    (Sample.request Sample.post (Sample.body "field1" "value1")) false
  = (Some (Py.u "example.com"), Some 9090%Z).
Proof. vm_compute. reflexivity. Qed.

(** C6 at work: a request without a blank line, and a request whose body
    is cut short. *)
Lemma resolve_malformed_none_witness :
  Sample.resolve Sample.API_ENDPOINTS (Py.b "POST /api/endpoint HTTP/1.1") false
  = no_target ∧
  Sample.resolve Sample.API_ENDPOINTS
    (Sample.request Sample.post (Py.b "{")) false
  = no_target.
Proof.
  split; apply resolve_malformed_none.
  - left. apply find_None. vm_compute. reflexivity.
  - right. exists (Sample.headers Sample.post), (Py.b "{").
    split; [apply sample_request_cut|vm_compute; reflexivity].
Defined.

(** C10 at work: a body that is a JSON array gives "none" with the sample
    table and the Host header's target with the empty table. *)
Lemma resolve_non_object_witness :
  Sample.resolve Sample.API_ENDPOINTS
    (Sample.request Sample.post (Py.b "[1]")) false
  = no_target ∧
  Sample.resolve [] (Sample.request Sample.post (Py.b "[1]")) false
  = (Some (Py.u "example.com"), Some 9090%Z).
Proof.
  assert (Json.loads (Py.b "[1]") = Some (PyList [PyInt 1])) as Hload
    by (vm_compute; reflexivity).
  split.
  - refine (proj1 (resolve_non_object Sample.unicode_decimal Json.loads
                     Sample.API_ENDPOINTS _ _ _ _ (sample_request_cut _) Hload _) _);
      done.
  - unfold Sample.resolve.
    rewrite (proj2 (resolve_non_object Sample.unicode_decimal Json.loads
                     [] _ _ _ _ (sample_request_cut _) Hload ltac:(done)) eq_refl).
    vm_compute. reflexivity.
Defined.

(** C5 as stated fails: the host segment of this line is missing, yet the
    parser returns the empty host with port 9090 and not "none". *)
Lemma parse_host_header_blank_host_counterexample :
  Py.b "Host: :9090" = Py.b "Host: " ++ Py.b "" ++ Py.b ":9090" ∧
  parse_host_header Sample.unicode_decimal (Py.b "Host: :9090")
  = (Some [], Some 9090%Z) ∧
  parse_host_header Sample.unicode_decimal (Py.b "Host: :9090") ≠ no_target.
Proof.
  split; [reflexivity|]. split; [vm_compute; reflexivity|].
  vm_compute. discriminate.
Qed.

(** The amended C5 at work: a line with a port that reads as an integer, a
    line with a port that does not, and the empty line. *)
Lemma parse_host_header_fields_witness :
  parse_host_header Sample.unicode_decimal (Py.b "Host: example.org: 8_000 ")
  = (Some (Py.u "example.org"), Some 8000%Z) ∧
  parse_host_header Sample.unicode_decimal (Py.b "Host: example.org:http")
  = no_target ∧
  parse_host_header Sample.unicode_decimal (Py.b "Host: example.org")
  = (Some (Py.u "example.org"), Some 80%Z) ∧
  parse_host_header Sample.unicode_decimal (Py.b "") = no_target.
Proof.
  split; [|split; [|split]].
  - destruct (parse_host_header_fields Sample.unicode_decimal
                (Py.b "Host: example.org: 8_000 ")) as (_ & _ & _ & H).
    destruct (H (Py.u "Host: example.org: 8_000 ") eq_refl) as (_ & _ & H3).
    rewrite (H3 (Py.u "Host") (Py.u " example.org") (Py.u " 8_000 ") []);
      [reflexivity|reflexivity|apply (bool_decide_unpack _); vm_compute; exact I ..|by left].
  - destruct (parse_host_header_fields Sample.unicode_decimal
                (Py.b "Host: example.org:http")) as (_ & _ & _ & H).
    destruct (H (Py.u "Host: example.org:http") eq_refl) as (_ & _ & H3).
    rewrite (H3 (Py.u "Host") (Py.u " example.org") (Py.u "http") []);
      [reflexivity|reflexivity|apply (bool_decide_unpack _); vm_compute; exact I ..|by left].
  - destruct (parse_host_header_fields Sample.unicode_decimal
                (Py.b "Host: example.org")) as (_ & _ & _ & H).
    destruct (H (Py.u "Host: example.org") eq_refl) as (_ & H2 & _).
    rewrite (H2 (Py.u "Host") (Py.u " example.org"));
      [reflexivity|reflexivity|apply (bool_decide_unpack _); vm_compute; exact I ..].
  - destruct (parse_host_header_fields Sample.unicode_decimal (Py.b ""))
      as (_ & _ & _ & H).
    destruct (H [] eq_refl) as (H1 & _). apply H1. set_solver.
Defined.

(** The bound on the digits of a port: 4300 digits are read, one more is
    refused and the line gives "none". *)
Example port_digit_bound :
  (∃ port, parse_host_header Sample.unicode_decimal
             (Py.b "Host: h:" ++ repeat "1"%byte 4300)
           = (Some (Py.u "h"), Some port)) ∧
  parse_host_header Sample.unicode_decimal (Py.b "Host: h:" ++ repeat "1"%byte 4301)
  = no_target ∧
  parse_host_header Sample.unicode_decimal (Py.b "Host: h:" ++ repeat "1"%byte 4400)
  = no_target.
Proof.
  split; [|split; vm_compute; reflexivity].
  eexists. vm_compute. reflexivity.
Qed.

(** C3 at work: two chunks from the client, one from the backend. *)
Lemma bounded_relay_half_duplex_witness :
  ∃ w' tr,
    (∀ rounds, 2 ≤ rounds → 1 ≤ rounds →
       handle_regular_http rounds Sample.exchange = Done (Ok ()) w') ∧
    trace w' = [] ++ tr ∧
    tr = copied Client Target [Py.b "ab"; Py.b "c"]
         ++ copied Target Client [Py.b "xyz"] ∧
    sent_to Target tr = [Py.b "ab"; Py.b "c"] ∧
    sent_to Client tr = [Py.b "xyz"] ∧
    concat (sent_to Target tr) = Py.b "abc" ∧
    concat (sent_to Client tr) = Py.b "xyz" ∧
    (∀ i j a b oka okb,
       tr !! i = Some (EvSend Target a oka) →
       tr !! j = Some (EvSend Client b okb) →
       i < j).
Proof.
  apply (bounded_relay_half_duplex Sample.exchange
           [Py.b "ab"; Py.b "c"] [Py.b "xyz"] [] []).
  - reflexivity.
  - reflexivity.
  - repeat constructor; discriminate.
  - repeat constructor; discriminate.
  - constructor.
  - constructor.
Defined.

(** C9 at work: the request resolves to the first sample rule's target and
    the dial is refused. *)
Lemma dial_failure_closes_client_witness :
  ∃ w' tr,
    handle_client Sample.unicode_decimal Json.loads Sample.API_ENDPOINTS 1
      Sample.refused = Done (Ok ()) w' ∧
    trace w' = [] ++ tr ∧
    tr = [EvRecv Client
            (Received (Sample.request Sample.post (Sample.body "field1" "value1")));
          EvConnect (Py.u "api1.example.com") 80 false;
          EvClose Target; EvClose Client] ∧
    sent_to Client tr = [] ∧ sent_to Target tr = [] ∧
    dials tr = 1 ∧
    last tr = Some (EvClose Client).
Proof.
  apply (dial_failure_closes_client Sample.unicode_decimal Json.loads
           Sample.API_ENDPOINTS Sample.refused 1
           (Sample.request Sample.post (Sample.body "field1" "value1")) []
           (Py.u "api1.example.com") 80).
  - reflexivity.
  - discriminate.
  - vm_compute. reflexivity.
  - discriminate.
  - reflexivity.
Defined.

(** The streaming relay on the same connection: the turns alternate, and
    the backend's zero-length read ends the relay while the client still
    has its own pending. *)
Example streaming_exchange :
  ∃ w', handle_streaming 2 Sample.exchange = Done (Ok ()) w' ∧
        trace w' = [EvRecv Client (Received (Py.b "ab")); EvSend Target (Py.b "ab") true;
                    EvRecv Target (Received (Py.b "xyz")); EvSend Client (Py.b "xyz") true;
                    EvRecv Client (Received (Py.b "c")); EvSend Target (Py.b "c") true;
                    EvRecv Target (Received [])] ∧
        client_recv w' = [Received []].
Proof. eexists. split; [reflexivity|]. split; reflexivity. Qed.

(** * The repository's tests, run on the model *)

Example test_is_stream_chunked :
  is_stream (Py.b "Transfer-Encoding: chunked" ++ Py.CRLF) = true.
Proof. reflexivity. Qed.

Example test_is_stream_not_chunked :
  is_stream (Py.b "Content-Type: application/json" ++ Py.CRLF) = false.
Proof. reflexivity. Qed.

Example test_determine_target_endpoint_json :
  Sample.resolve Sample.API_ENDPOINTS
    (Sample.request
       ["POST /api/endpoint HTTP/1.1"; "Content-Type: application/json"]%string
       (Sample.body "field1" "value1")) false
  = (Some (Py.u "api1.example.com"), Some 80%Z).
Proof. vm_compute. reflexivity. Qed.

Example test_find_target_endpoint :
  find_target_endpoint Sample.API_ENDPOINTS (PyDict (Sample.document "field2" "value2"))
  = Ok (Some (Py.u "api2.example.com"), Some 8080%Z).
Proof. vm_compute. reflexivity. Qed.

(** The request of [test_determine_target_endpoint_no_match] matches no rule
    and carries no Host header: the resolver has nothing to fall back on. *)
Example test_determine_target_endpoint_no_match :
  Sample.resolve Sample.API_ENDPOINTS
    (Sample.request
       ["POST /api/endpoint HTTP/1.1"; "Content-Type: application/json"]%string
       (Sample.body "field1" "value2")) false
  = no_target.
Proof. vm_compute. reflexivity. Qed.

(** * More on the resolver *)

Section ResolverFacts.
Variable unicode_decimal : N → option N.
Variable json_loads : bytes → option pyobj.
Implicit Types table : list (str * EndpointRule).
Implicit Types d : gmap str pyobj.

Lemma parse_host_header_paired (line : bytes) :
  paired (parse_host_header unicode_decimal line).
Proof.
  unfold parse_host_header.
  match goal with |- paired (match ?a with _ => _ end) => destruct a as [[h p]|] end.
  - right. by eexists _, _.
  - by left.
Qed.

Lemma find_in_paired table payload result :
  find_target_endpoint_in table payload = Ok result → paired result.
Proof.
  induction table as [|[name rule] table IH]; simpl.
  - intros [= <-]. by left.
  - destruct (py_get payload (match_field rule)) as [v|]; [simpl|done].
    destruct (py_eq_str v (match_value rule)); [|done].
    intros [= <-]. right. by eexists _, _.
Qed.

Lemma determine_target_endpoint_paired table (data : bytes) (is_streaming : bool) :
  paired (determine_target_endpoint unicode_decimal json_loads table data is_streaming).
Proof.
  unfold determine_target_endpoint. destruct is_streaming; simpl; [by left|].
  destruct (Py.split _ data _) as [|headers [|payload_str [|]]]; try by left.
  destruct (json_loads payload_str) as [payload|]; simpl; [|by left].
  pose proof (parse_host_header_paired (host_line headers)) as Hhost.
  destruct (parse_host_header _ _) as [original_host original_port].
  destruct (find_target_endpoint table payload) as [[target_host target_port]|] eqn:F;
    simpl; [|by left].
  destruct (falsy target_host); [done|]. by eapply find_in_paired.
Qed.

(** X1: whatever the request, the flag, the table and the JSON reader, the
    resolver returns a host and a port together or [(None, None)]; so do
    the Host header parser and, when it does not raise, the rule
    evaluation.  A caller may test the host alone. *)
Theorem resolver_decisions_paired table (data : bytes) (is_streaming : bool)
    (line : bytes) (payload : pyobj) :
  paired (determine_target_endpoint unicode_decimal json_loads table data is_streaming) ∧
  paired (parse_host_header unicode_decimal line) ∧
  (∀ result, find_target_endpoint table payload = Ok result → paired result).
Proof.
  split; [apply determine_target_endpoint_paired|].
  split; [apply parse_host_header_paired|]. apply find_in_paired.
Qed.

(** X2: on an object payload the rule evaluation never raises; it returns
    [(None, None)] exactly when no rule of the table matches, and otherwise
    the target of a rule of the table that matches. *)
Theorem find_target_endpoint_object table d :
  ∃ result,
    find_target_endpoint table (PyDict d) = Ok result ∧
    (result = no_target ↔ ∀ e, e ∈ table → ¬ rule_matches d e.2) ∧
    (result ≠ no_target →
     ∃ e, e ∈ table ∧ rule_matches d e.2 ∧
          result = (Some (target_host e.2), Some (target_port e.2))).
Proof.
  unfold find_target_endpoint.
  induction table as [|[name rule] table (result & IH & Hnone & Hsome)]; simpl.
  - exists no_target. split; [done|]. split; [|done].
    split; [|done]. intros _ e He. by apply elem_of_nil in He.
  - destruct (py_eq_str _ _) eqn:E.
    + apply py_eq_str_get in E. eexists. split; [done|]. split.
      * split; [done|]. intros Hno. destruct (Hno (name, rule)); [left|done].
      * intros _. exists (name, rule). split; [left|done].
    + exists result. split; [done|]. split.
      * rewrite Hnone. split.
        -- intros Hno e [->|He]%elem_of_cons; [|by apply Hno].
           simpl. intros Hyes%py_eq_str_get. congruence.
        -- intros Hno e He. apply Hno. by right.
      * intros Hne. destruct (Hsome Hne) as (e & He & Hyes & ->).
        exists e. split; [by right|done].
Qed.

Lemma marker_unroutable table (data : bytes) :
  occurs (Py.b "Transfer-Encoding: chunked") data →
  determine_target_endpoint unicode_decimal json_loads table data (is_stream data)
  = no_target.
Proof.
  intros Hmarker. unfold is_stream.
  by rewrite (proj2 (contains_occurs _ _) Hmarker).
Qed.

End ResolverFacts.

(** * Every run of the relays *)

Lemma sendall_run (p : peer) (data : bytes) (w : world) :
  ∃ (ok : bool) w1,
    sendall p data w = Done (if ok then Ok () else Raise OSError) w1 ∧
    trace w1 = trace w ++ [EvSend p data ok] ∧
    (∀ q, recv_script q w1 = recv_script q w) ∧
    dial w1 = dial w.
Proof.
  exists (hd true (send_script p w)). unfold sendall.
  destruct (hd true (send_script p w)); eexists; (split; [reflexivity|]);
    destruct p, w; repeat split; by intros [].
Qed.

Lemma recv_run (p : peer) (w : world) :
  ∃ r w1,
    recv p w = Done (match r with
                     | Received data => Ok data
                     | RecvFails => Raise OSError
                     end) w1 ∧
    trace w1 = trace w ++ [EvRecv p r] ∧
    (∀ q, length (recv_script q w1) ≤ length (recv_script q w)) ∧
    (r ≠ Received [] → S (length (recv_script p w1)) = length (recv_script p w)) ∧
    dial w1 = dial w.
Proof.
  exists (hd (Received []) (recv_script p w)). unfold recv.
  destruct (hd (Received []) (recv_script p w)) as [data|] eqn:Hhd;
    eexists; (split; [reflexivity|]);
    (split; [by destruct p, w|]);
    (split; [intros q; destruct p, q, w; simpl; try done;
             match goal with |- context [tl ?l] => destruct l; simpl; lia end|]);
    (split; [|by destruct p, w]);
    intros Hne; destruct p, w; simpl in *;
    match goal with H : hd _ ?l = _ |- _ => destruct l; simpl in *; congruence end.
Qed.

Lemma copy_until_closed_unfold (rounds : nat) (src dst : peer) (data : bytes) :
  copy_until_closed rounds src dst data =
  if empty data then io_ret ()
  else match rounds with
       | O => λ _, Unfinished
       | S rounds' =>
           io_bind (sendall dst data) (λ _,
             io_bind (recv src) (λ data', copy_until_closed rounds' src dst data'))
       end.
Proof. by destruct rounds. Qed.

(** The loop [while data: dst.sendall(data); data = src.recv()] in any
    world: it ends, having made only reads on [src] and writes on [dst];
    it returns after a zero-length read and raises after a failed call. *)
Lemma copy_until_closed_any (src dst : peer) (n : nat) :
  ∀ (w : world) (data : bytes),
    length (recv_script src w) ≤ n →
    ∃ r w' evs,
      (∀ rounds, n < rounds →
         copy_until_closed rounds src dst data w = Done r w') ∧
      trace w' = trace w ++ evs ∧
      Forall (copies src dst) evs ∧
      (∀ q, length (recv_script q w') ≤ length (recv_script q w)) ∧
      dial w' = dial w ∧
      match r with
      | Ok _ => (data = [] ∧ evs = []) ∨ last evs = Some (EvRecv src (Received []))
      | Raise e => e = OSError ∧ ∃ ev, last evs = Some ev ∧ fails ev = true
      end.
Proof.
  induction n as [|n IH]; intros w data Hn.
  all: destruct data as [|x data];
    [exists (Ok ()), w, []; split; [by intros []|]; rewrite app_nil_r;
     repeat split; auto|].
  all: destruct (sendall_run dst (x :: data) w) as (ok & w1 & Hsend & Ht1 & Hs1 & Hd1).
  all: destruct ok;
    [|exists (Raise OSError), w1, [EvSend dst (x :: data) false];
      split; [intros [|rounds] ?; [lia|]; rewrite copy_until_closed_unfold; cbn [empty];
              unfold io_bind; by rewrite Hsend|];
      split; [done|]; split; [by repeat constructor|];
      split; [intros q; by rewrite Hs1|]; split; [done|]; split; [done|by eexists]].
  all: destruct (recv_run src w1) as (r & w2 & Hrecv & Ht2 & Hs2 & Hlen2 & Hd2).
  all: destruct r as [[|y next]|];
    [exists (Ok ()), w2, [EvSend dst (x :: data) true; EvRecv src (Received [])];
     split; [intros [|rounds] ?; [lia|]; rewrite copy_until_closed_unfold; cbn [empty];
             unfold io_bind; rewrite Hsend, Hrecv; by destruct rounds|];
     split; [by rewrite Ht2, Ht1, <- app_assoc|]; split; [by repeat constructor|];
     split; [intros q; rewrite <- Hs1; apply Hs2|]; split; [congruence|by right]
    | |
     exists (Raise OSError), w2, [EvSend dst (x :: data) true; EvRecv src RecvFails];
     split; [intros [|rounds] ?; [lia|]; rewrite copy_until_closed_unfold; cbn [empty];
             unfold io_bind; by rewrite Hsend, Hrecv|];
     split; [by rewrite Ht2, Ht1, <- app_assoc|]; split; [by repeat constructor|];
     split; [intros q; rewrite <- Hs1; apply Hs2|]; split; [congruence|];
     split; [done|by eexists]].
  - specialize (Hlen2 ltac:(done)). rewrite Hs1 in Hlen2. lia.
  - specialize (Hlen2 ltac:(done)). rewrite Hs1 in Hlen2.
    destruct (IH w2 (y :: next)) as (r & w' & evs & Hrun & Ht & Hall & Hs & Hd & Hlast);
      [lia|].
    exists r, w', (EvSend dst (x :: data) true :: EvRecv src (Received (y :: next)) :: evs).
    split; [|split; [|split; [|split; [|split]]]].
    + intros [|rounds] ?; [lia|]. rewrite copy_until_closed_unfold. cbn [empty].
      unfold io_bind. rewrite Hsend, Hrecv. apply Hrun. lia.
    + rewrite Ht, Ht2, Ht1, <- !app_assoc. done.
    + by repeat constructor.
    + intros q. rewrite <- Hs1. etransitivity; [apply Hs|apply Hs2].
    + congruence.
    + destruct r as [[]|e].
      * destruct Hlast as [[? _]|Hlast]; [done|]. right.
        destruct evs; [done|]. exact Hlast.
      * destruct Hlast as (-> & ev & Hlast & Hev). split; [done|]. exists ev.
        split; [|done]. destruct evs; [done|]. exact Hlast.
Qed.

(** * Every run of the connection handler *)

Lemma relay_direction_any (src dst : peer) (w : world) :
  ∃ r w' evs,
    (∀ rounds, length (recv_script src w) ≤ rounds →
       io_bind (recv src) (copy_until_closed rounds src dst) w = Done r w') ∧
    trace w' = trace w ++ evs ∧
    Forall (copies src dst) evs ∧
    (∀ q, length (recv_script q w') ≤ length (recv_script q w)) ∧
    dial w' = dial w ∧
    match r with
    | Ok _ => last evs = Some (EvRecv src (Received []))
    | Raise e => e = OSError ∧ ∃ ev, last evs = Some ev ∧ fails ev = true
    end.
Proof.
  destruct (recv_run src w) as (r0 & w1 & Hrecv & Ht1 & Hs1 & Hlen1 & Hd1).
  destruct r0 as [[|x data]|].
  - exists (Ok ()), w1, [EvRecv src (Received [])].
    split; [intros rounds _; unfold io_bind; rewrite Hrecv; by destruct rounds|].
    repeat split; try done. by repeat constructor.
  - specialize (Hlen1 ltac:(done)).
    destruct (copy_until_closed_any src dst (length (recv_script src w1)) w1 (x :: data))
      as (r & w' & evs & Hrun & Ht & Hall & Hs & Hd & Hlast); [done|].
    exists r, w', (EvRecv src (Received (x :: data)) :: evs).
    split; [|split; [|split; [|split; [|split]]]].
    + intros rounds Hrounds. unfold io_bind. rewrite Hrecv. apply Hrun. lia.
    + by rewrite Ht, Ht1, <- app_assoc.
    + by constructor.
    + intros q. etransitivity; [apply Hs|apply Hs1].
    + congruence.
    + destruct r as [[]|e].
      * destruct Hlast as [[? _]|Hlast]; [done|]. destruct evs; [done|]. exact Hlast.
      * destruct Hlast as (-> & ev & Hlast & Hev). split; [done|]. exists ev.
        split; [|done]. destruct evs; [done|]. exact Hlast.
  - exists (Raise OSError), w1, [EvRecv src RecvFails].
    split; [intros rounds _; unfold io_bind; by rewrite Hrecv|].
    repeat split; try done; [by repeat constructor|by eexists].
Qed.

Lemma copies_transfer (src dst : peer) (evs : list io_event) :
  Forall (copies src dst) evs → Forall (λ e, is_transfer e = true) evs.
Proof. intros H. eapply Forall_impl; [exact H|]. by intros []. Qed.

(** Every run of the bounded relay, failures included. *)
Lemma handle_regular_http_any (w : world) :
  ∃ r w' first second,
    (∀ rounds, length (client_recv w) ≤ rounds → length (target_recv w) ≤ rounds →
       handle_regular_http rounds w = Done r w') ∧
    trace w' = trace w ++ first ++ second ∧
    Forall (copies Client Target) first ∧
    Forall (copies Target Client) second ∧
    dial w' = dial w ∧
    match r with
    | Ok _ =>
        last first = Some (EvRecv Client (Received [])) ∧
        last second = Some (EvRecv Target (Received []))
    | Raise e =>
        e = OSError ∧
        (second = [] ∨ last first = Some (EvRecv Client (Received []))) ∧
        ∃ ev, last (first ++ second) = Some ev ∧ fails ev = true
    end.
Proof.
  destruct (relay_direction_any Client Target w)
    as (r1 & w1 & evs1 & Hrun1 & Ht1 & Hall1 & Hs1 & Hd1 & Hlast1).
  destruct r1 as [[]|e1].
  - destruct (relay_direction_any Target Client w1)
      as (r2 & w2 & evs2 & Hrun2 & Ht2 & Hall2 & Hs2 & Hd2 & Hlast2).
    exists r2, w2, evs1, evs2.
    split; [|split; [|split; [done|split; [done|split; [congruence|]]]]].
    + intros rounds Hc Ht. unfold handle_regular_http. rewrite <- io_bind_assoc.
      unfold io_bind at 1. rewrite (Hrun1 rounds Hc). apply Hrun2.
      etransitivity; [apply (Hs1 Target)|done].
    + by rewrite Ht2, Ht1, app_assoc.
    + destruct r2 as [[]|e2]; [done|].
      destruct Hlast2 as (-> & ev & Hlast2 & Hev). split; [done|].
      split; [by right|]. exists ev. split; [|done].
      destruct evs2 as [|e0 evs2]; [done|]. by rewrite last_app, Hlast2.
  - destruct Hlast1 as (-> & ev & Hlast1 & Hev).
    exists (Raise OSError), w1, evs1, [].
    split; [|split; [|split; [done|split; [done|split; [done|]]]]].
    + intros rounds Hc Ht. unfold handle_regular_http. rewrite <- io_bind_assoc.
      unfold io_bind at 1. by rewrite (Hrun1 rounds Hc).
    + by rewrite app_nil_r.
    + split; [done|]. split; [by left|]. exists ev. by rewrite app_nil_r.
Qed.

Lemma trace_log (e : io_event) (w : world) : trace (log e w) = trace w ++ [e].
Proof. done. Qed.

Lemma recv_script_log (q : peer) (e : io_event) (w : world) :
  recv_script q (log e w) = recv_script q w.
Proof. by destruct q. Qed.

Section HandlerFacts.
Variable unicode_decimal : N → option N.
Variable json_loads : bytes → option pyobj.
Variable table : list (str * EndpointRule).

Local Abbreviation handle := (handle_client unicode_decimal json_loads table).
Local Abbreviation resolve := (determine_target_endpoint unicode_decimal json_loads table).

(** What the handler does when the first read gives [data] and the request
    is empty or has no target. *)
Lemma handle_client_no_target (w : world) (data : bytes) :
  hd (Received []) (client_recv w) = Received data →
  data = [] ∨ falsy (resolve data (is_stream data)).1 = true →
  ∃ w',
    (∀ rounds, handle rounds w = Done (Ok ()) w') ∧
    trace w' = trace w ++ [EvRecv Client (Received data); EvClose Client; EvClose Client].
Proof.
  intros Hhd Hnone.
  exists (log (EvClose Client) (log (EvClose Client)
            (log (EvRecv Client (Received data))
               (set_recv_script Client (tl (client_recv w)) w)))).
  split.
  - intros rounds.
    unfold handle_client, try_finally, try_except, io_bind, recv. simpl recv_script.
    rewrite Hhd. destruct Hnone as [->|Hnone]; [reflexivity|].
    destruct data as [|x data]; [reflexivity|]. cbn [empty].
    destruct (resolve (x :: data) _) as [target_host target_port].
    simpl in Hnone. rewrite Hnone. reflexivity.
  - destruct w. simpl. by rewrite <- !app_assoc.
Qed.

(** What the handler does when the first read gives a request that has a
    target: it dials, writes the request to the target and runs the bounded
    relay, inside the two clean-up blocks. *)
Lemma handle_client_routed (w : world) (x : byte) (data : bytes) (c : N)
    (host : str) (port : Z) (rounds : nat) :
  hd (Received []) (client_recv w) = Received (x :: data) →
  resolve (x :: data) (is_stream (x :: data)) = (Some (c :: host), Some port) →
  handle rounds w =
  try_finally
    (try_except
       (try_finally
          (io_bind (connect (Some (c :: host)) (Some port)) (λ _,
             io_bind (sendall Target (x :: data)) (λ _,
               handle_regular_http rounds)))
          (close Target))
       (io_ret ()))
    (close Client)
    (log (EvRecv Client (Received (x :: data)))
       (set_recv_script Client (tl (client_recv w)) w)).
Proof.
  intros Hhd Htarget.
  destruct (is_stream (x :: data)) eqn:Hstream; [done|].
  unfold handle_client, try_finally at 1 3, try_except at 1 2, io_bind at 1 4, recv.
  simpl recv_script. rewrite Hhd. cbn [empty].
  rewrite Hstream, Htarget. reflexivity.
Qed.

Lemma handle_client_any (w : world) :
  ∃ w' tr,
    (∀ rounds, length (client_recv w) ≤ rounds → length (target_recv w) ≤ rounds →
       handle rounds w = Done (Ok ()) w') ∧
    trace w' = trace w ++ tr ∧
    handler_run tr.
Proof.
  destruct (hd (Received []) (client_recv w)) as [data|] eqn:Hhd.
  2: { eexists _, _. split; [|split; [|apply run_read_fails]].
       - intros rounds _ _.
         unfold handle_client, try_finally, try_except, io_bind, recv.
         simpl recv_script. rewrite Hhd. reflexivity.
       - destruct w. simpl. by rewrite <- !app_assoc. }
  destruct (decide (data = [] ∨ falsy (resolve data (is_stream data)).1 = true))
    as [Hnone|Hsome].
  { destruct (handle_client_no_target w data Hhd Hnone) as (w' & Hrun & Ht).
    exists w', [EvRecv Client (Received data); EvClose Client; EvClose Client].
    split; [|split; [exact Ht|apply run_no_target]].
    intros rounds _ _. apply Hrun. }
  destruct data as [|x data]; [by destruct Hsome; left|].
  pose proof (determine_target_endpoint_paired unicode_decimal json_loads table
                (x :: data) (is_stream (x :: data))) as Hpaired.
  destruct (resolve (x :: data) (is_stream (x :: data)))
    as [target_host target_port] eqn:Htarget.
  destruct Hpaired as [[= -> ->]|(host & port & [= -> ->])];
    [by destruct Hsome; right|].
  destruct host as [|c host]; [by destruct Hsome; right|]. clear Hsome.
  set (w1 := log (EvRecv Client (Received (x :: data)))
               (set_recv_script Client (tl (client_recv w)) w)).
  assert (length (client_recv w1) ≤ length (client_recv w) ∧
          target_recv w1 = target_recv w ∧
          trace w1 = trace w ++ [EvRecv Client (Received (x :: data))]) as (Hc1 & Ht1 & Htr1).
  { subst w1. destruct w as [[|? ?] ? ? ? ? ?]; simpl; repeat split; lia. }
  pose proof (λ rounds, handle_client_routed w x data c host port rounds Hhd Htarget)
    as Hstep. fold w1 in Hstep.
  destruct (dial w1) eqn:Hdial.
  2: { exists (log (EvClose Client) (log (EvClose Target)
                 (log (EvConnect (c :: host) port false) w1))),
         [EvRecv Client (Received (x :: data)); EvConnect (c :: host) port false;
          EvClose Target; EvClose Client].
       split; [|split; [|apply run_dial_fails]].
       - intros rounds _ _. rewrite Hstep.
         unfold try_finally, try_except, io_bind, connect. rewrite Hdial. reflexivity.
       - rewrite !trace_log, Htr1, <- !app_assoc. reflexivity. }
  set (w2 := log (EvConnect (c :: host) port true) w1).
  destruct (sendall_run Target (x :: data) w2) as (ok & w3 & Hsend & Htr3 & Hs3 & Hd3).
  destruct ok.
  2: { exists (log (EvClose Client) (log (EvClose Target) w3)),
         ([EvRecv Client (Received (x :: data)); EvConnect (c :: host) port true;
           EvSend Target (x :: data) false] ++ [] ++ [EvClose Target; EvClose Client]).
       split; [|split; [|apply run_relayed; [constructor|done]]].
       - intros rounds _ _. rewrite Hstep.
         unfold try_finally, try_except, io_bind, connect. rewrite Hdial. fold w2.
         rewrite Hsend. reflexivity.
       - rewrite !trace_log, Htr3. subst w2. rewrite trace_log, Htr1, <- !app_assoc.
         reflexivity. }
  destruct (handle_regular_http_any w3)
    as (r & w4 & first & second & Hrun & Htr4 & Hall1 & Hall2 & Hd4 & _).
  exists (log (EvClose Client) (log (EvClose Target) w4)),
    ([EvRecv Client (Received (x :: data)); EvConnect (c :: host) port true;
      EvSend Target (x :: data) true] ++ (first ++ second)
     ++ [EvClose Target; EvClose Client]).
  split; [|split; [|apply run_relayed; [|done]]].
  - intros rounds Hcr Htr. rewrite Hstep.
    unfold try_finally, try_except, io_bind, connect. rewrite Hdial. fold w2.
    rewrite Hsend, Hrun.
    + by destruct r as [[]|e].
    + change (client_recv w3) with (recv_script Client w3).
      rewrite (Hs3 Client). subst w2. rewrite (recv_script_log Client).
      change (recv_script Client w1) with (client_recv w1). lia.
    + change (target_recv w3) with (recv_script Target w3).
      rewrite (Hs3 Target). subst w2. rewrite (recv_script_log Target).
      change (recv_script Target w1) with (target_recv w1). rewrite Ht1. lia.
  - rewrite !trace_log, Htr4, Htr3. subst w2. rewrite trace_log, Htr1, <- !app_assoc.
    reflexivity.
  - apply Forall_app. split; by eapply copies_transfer.
Qed.

End HandlerFacts.

Lemma dials_app (tr1 tr2 : list io_event) : dials (tr1 ++ tr2) = dials tr1 + dials tr2.
Proof. unfold dials. by rewrite filter_app, length_app. Qed.

Lemma closes_app (p : peer) (tr1 tr2 : list io_event) :
  closes p (tr1 ++ tr2) = closes p tr1 + closes p tr2.
Proof. unfold closes. by rewrite filter_app, length_app. Qed.

Lemma transfers_no_dial (evs : list io_event) :
  Forall (λ e, is_transfer e = true) evs → dials evs = 0.
Proof.
  induction 1 as [|e evs He _ IH]; [done|].
  change (e :: evs) with ([e] ++ evs). rewrite dials_app, IH. by destruct e.
Qed.

Lemma transfers_no_close (p : peer) (evs : list io_event) :
  Forall (λ e, is_transfer e = true) evs → closes p evs = 0.
Proof.
  induction 1 as [|e evs He _ IH]; [done|].
  change (e :: evs) with ([e] ++ evs). rewrite closes_app, IH. by destruct e.
Qed.

Lemma handler_run_facts (tr : list io_event) :
  handler_run tr →
  last tr = Some (EvClose Client) ∧
  dials tr ≤ 1 ∧
  closes Target tr = dials tr ∧
  (∀ i e, tr !! i = Some e → touches Target e = true →
     ∃ j host port, j < i ∧ tr !! j = Some (EvConnect host port true)).
Proof.
  destruct 1 as [|data|data host port|data host port ok evs Hall Hok].
  1-3: split; [done|]; split; [cbv; lia|]; split; [reflexivity|];
       intros i e Hi He; repeat (destruct i as [|i]; simplify_eq/=).
  split; [|split; [|split]].
  - rewrite app_assoc, last_app. done.
  - rewrite !dials_app, (transfers_no_dial _ Hall).
    change (dials [EvRecv Client (Received data); EvConnect host port true;
                   EvSend Target data ok]) with 1.
    change (dials [EvClose Target; EvClose Client]) with 0. lia.
  - rewrite !closes_app, !dials_app, (transfers_no_dial _ Hall),
      (transfers_no_close _ _ Hall). reflexivity.
  - intros i e Hi He. destruct i as [|[|i]]; simplify_eq/=.
    exists 1, host, port. split; [lia|done].
Qed.

(** The bounded relay when nothing fails. *)
Lemma handle_regular_http_clean (w : world) (cs ts : list bytes) rest_c rest_t :
  client_recv w = map Received cs ++ Received [] :: rest_c →
  target_recv w = map Received ts ++ Received [] :: rest_t →
  Forall (λ c, c ≠ []) cs →
  Forall (λ c, c ≠ []) ts →
  Forall (λ ok, ok = true) (client_send w) →
  Forall (λ ok, ok = true) (target_send w) →
  ∃ w',
    (∀ rounds, length cs ≤ rounds → length ts ≤ rounds →
       handle_regular_http rounds w = Done (Ok ()) w') ∧
    trace w' = trace w ++ copied Client Target cs ++ copied Target Client ts.
Proof.
  intros Hc Ht Hcs Hts Hcok Htok.
  destruct (relay_direction_run Client Target cs w rest_c)
    as (w1 & Hrun1 & Htrace1 & _ & Htarget1 & Hcsend1 & _ & _); try done.
  destruct (relay_direction_run Target Client ts w1 rest_t)
    as (w2 & Hrun2 & Htrace2 & _); try done.
  { by rewrite Htarget1. }
  { by rewrite Hcsend1. }
  exists w2. split.
  - intros rounds Hr1 Hr2. unfold handle_regular_http. rewrite <- io_bind_assoc.
    unfold io_bind at 1. rewrite (Hrun1 rounds Hr1). by apply Hrun2.
  - by rewrite Htrace2, Htrace1, app_assoc.
Qed.

Section HandlerTheorems.
Variable unicode_decimal : N → option N.
Variable json_loads : bytes → option pyobj.
Variable table : list (str * EndpointRule).

Local Abbreviation handle := (handle_client unicode_decimal json_loads table).
Local Abbreviation resolve := (determine_target_endpoint unicode_decimal json_loads table).

(** X3: in every world the handler returns normally, whatever fails on the
    way, and its last socket call closes the client socket.  It dials at
    most once, closes the target socket exactly when it dialled, and reads
    from or writes to the target socket only after a dial that succeeded. *)
Theorem handler_always_cleans_up (w : world) :
  ∃ w' tr,
    (∀ rounds, length (client_recv w) ≤ rounds → length (target_recv w) ≤ rounds →
       handle rounds w = Done (Ok ()) w') ∧
    trace w' = trace w ++ tr ∧
    last tr = Some (EvClose Client) ∧
    dials tr ≤ 1 ∧
    closes Target tr = dials tr ∧
    (∀ i e, tr !! i = Some e → touches Target e = true →
       ∃ j host port, j < i ∧ tr !! j = Some (EvConnect host port true)).
Proof.
  destruct (handle_client_any unicode_decimal json_loads table w)
    as (w' & tr & Hrun & Htrace & Hshape).
  exists w', tr. split; [done|]. split; [done|]. by apply handler_run_facts.
Qed.

(** X4: when the first read is empty, or the resolver gives no host (or
    the empty host) for the request, the handler closes the client socket,
    twice, and does nothing else: no dial, no write. *)
Theorem unroutable_request_closed (w : world) (data : bytes) :
  hd (Received []) (client_recv w) = Received data →
  data = [] ∨ falsy (resolve data (is_stream data)).1 = true →
  ∃ w' tr,
    (∀ rounds, handle rounds w = Done (Ok ()) w') ∧
    trace w' = trace w ++ tr ∧
    tr = [EvRecv Client (Received data); EvClose Client; EvClose Client] ∧
    dials tr = 0 ∧ sent_to Client tr = [] ∧ sent_to Target tr = [].
Proof.
  intros Hhd Hnone.
  destruct (handle_client_no_target unicode_decimal json_loads table w data Hhd Hnone)
    as (w' & Hrun & Htrace).
  by exists w', [EvRecv Client (Received data); EvClose Client; EvClose Client].
Qed.

(** X5: a request that contains the bytes [Transfer-Encoding: chunked]
    anywhere, in a header or in the body, is classified as streaming, gets
    no target, and is closed without a dial: the handler never enters the
    streaming relay. *)
Theorem streaming_request_never_relayed (w : world) (data : bytes) :
  hd (Received []) (client_recv w) = Received data →
  occurs (Py.b "Transfer-Encoding: chunked") data →
  resolve data (is_stream data) = no_target ∧
  ∃ w',
    (∀ rounds, handle rounds w = Done (Ok ()) w') ∧
    trace w' = trace w ++ [EvRecv Client (Received data); EvClose Client; EvClose Client].
Proof.
  intros Hhd Hmarker.
  pose proof (marker_unroutable unicode_decimal json_loads table data Hmarker) as Hnone.
  split; [done|].
  apply (handle_client_no_target unicode_decimal json_loads table w data Hhd).
  right. by rewrite Hnone.
Qed.

(** X6: when the request has a target, the dial succeeds and nothing
    fails, the handler writes the request it read to the target first,
    then the client's further chunks, then writes the target's chunks to
    the client, and closes the target socket and then the client socket. *)
Theorem routed_exchange_end_to_end (w : world) (data : bytes) (host : str) (port : Z)
    (cs ts : list bytes) rest_c rest_t :
  client_recv w = Received data :: map Received cs ++ Received [] :: rest_c →
  target_recv w = map Received ts ++ Received [] :: rest_t →
  data ≠ [] →
  resolve data (is_stream data) = (Some host, Some port) →
  host ≠ [] →
  Forall (λ c, c ≠ []) cs →
  Forall (λ c, c ≠ []) ts →
  Forall (λ ok, ok = true) (client_send w) →
  Forall (λ ok, ok = true) (target_send w) →
  dial w = true →
  ∃ w' tr,
    (∀ rounds, length cs ≤ rounds → length ts ≤ rounds →
       handle rounds w = Done (Ok ()) w') ∧
    trace w' = trace w ++ tr ∧
    tr = [EvRecv Client (Received data); EvConnect host port true;
          EvSend Target data true]
         ++ copied Client Target cs ++ copied Target Client ts
         ++ [EvClose Target; EvClose Client] ∧
    sent_to Target tr = data :: cs ∧
    sent_to Client tr = ts.
Proof.
  intros Hc Ht Hdata Htarget Hhost Hcs Hts Hcok Htok Hdial.
  destruct data as [|x data]; [done|]. destruct host as [|c host]; [done|].
  destruct w as [cr tr csend tsend dl t]. simpl in Hc, Ht, Hcok, Htok, Hdial. subst cr tr dl.
  apply hd_all_true in Htok as [Hhd Htok].
  set (w3 := World (map Received cs ++ Received [] :: rest_c)
                   (map Received ts ++ Received [] :: rest_t) csend (tl tsend) true
                   (((t ++ [EvRecv Client (Received (x :: data))])
                     ++ [EvConnect (c :: host) port true])
                    ++ [EvSend Target (x :: data) true])).
  destruct (handle_regular_http_clean w3 cs ts rest_c rest_t)
    as (w4 & Hrun & Htrace); try done.
  exists (log (EvClose Client) (log (EvClose Target) w4)),
    ([EvRecv Client (Received (x :: data)); EvConnect (c :: host) port true;
      EvSend Target (x :: data) true]
     ++ copied Client Target cs ++ copied Target Client ts
     ++ [EvClose Target; EvClose Client]).
  split; [|split; [|split; [reflexivity|split]]].
  - intros rounds Hr1 Hr2.
    match goal with
    | |- handle_client _ _ _ _ ?w0 = _ =>
        rewrite (handle_client_routed unicode_decimal json_loads table w0
                   x data c host port rounds eq_refl Htarget)
    end.
    match goal with |- context [log ?e (set_recv_script Client ?s ?w0)] =>
      set (w1 := log e (set_recv_script Client s w0)) end.
    unfold try_finally, try_except, io_bind, connect, sendall.
    change (dial w1) with true. cbv iota zeta.
    change (send_script Target (log (EvConnect (c :: host) port true) w1)) with tsend.
    rewrite Hhd.
    change (log (EvSend Target (x :: data) true)
              (set_send_script Target (tl tsend)
                 (log (EvConnect (c :: host) port true) w1))) with w3.
    by rewrite (Hrun rounds Hr1 Hr2).
  - rewrite !trace_log, Htrace. subst w3. simpl. rewrite <- !app_assoc. reflexivity.
  - rewrite !sent_to_app, sent_to_copied_dst, sent_to_copied_src by done.
    by rewrite app_nil_r.
  - rewrite !sent_to_app, sent_to_copied_dst, sent_to_copied_src by done.
    simpl. by rewrite app_nil_r.
Qed.

End HandlerTheorems.

(** * More on the relays *)




(** The counts the streaming loop keeps in step, on the part [seen] of a
    run: chunks written to the client, chunks read from the target, chunks
    written to the target, chunks read from the client. *)
Lemma streaming_run_lock_step (tr : list io_event) :
  streaming_run tr →
  ∀ k,
    length (sent_to Client (take k tr)) ≤ length (received_from Target (take k tr)) ∧
    length (received_from Target (take k tr)) ≤ length (sent_to Target (take k tr)) ∧
    length (sent_to Target (take k tr)) ≤ length (received_from Client (take k tr)) ∧
    length (received_from Client (take k tr)) ≤ S (length (sent_to Client (take k tr))).
Proof.
  induction 1 as [| |data Hd|data Hd|data Hd|data response Hd Hr
                 |data response tr Hd Hr Hrun IH];
    intros k;
    try (destruct data as [|x data]; [done|]);
    try (destruct response as [|y response]; [done|]).
  1-6: do 5 (destruct k as [|k]; [vm_compute; lia|]); vm_compute; lia.
  do 4 (destruct k as [|k]; [vm_compute; lia|]).
  match goal with |- context [take _ (?l ++ tr)] =>
    change (take (S (S (S (S k)))) (l ++ tr)) with (l ++ take k tr);
    assert (length (sent_to Client l) = 1 ∧ length (received_from Target l) = 1 ∧
            length (sent_to Target l) = 1 ∧ length (received_from Client l) = 1)
      as (H1 & H2 & H3 & H4) by done;
    rewrite !sent_to_app, !received_from_app, !length_app, H1, H2, H3, H4
  end.
  specialize (IH k). lia.
Qed.

(** X8: the streaming relay works in lock step.  At every point of a run,
    the chunks written to the client are at most the chunks read from the
    target, these at most the chunks written to the target, these at most
    the chunks read from the client, and these at most one more than the
    chunks written to the client: the target is read only after a write
    to it, and the client is read again only after the target answered. *)
Theorem streaming_relay_lock_step (w : world) :
  ∃ w' tr,
    (∀ rounds, length (client_recv w) < rounds →
       handle_streaming rounds w = Done (Ok ()) w') ∧
    trace w' = trace w ++ tr ∧
    ∀ k,
      length (sent_to Client (take k tr)) ≤ length (received_from Target (take k tr)) ∧
      length (received_from Target (take k tr)) ≤ length (sent_to Target (take k tr)) ∧
      length (sent_to Target (take k tr)) ≤ length (received_from Client (take k tr)) ∧
      length (received_from Client (take k tr)) ≤ S (length (sent_to Client (take k tr))).
Proof.
  destruct (streaming_runs (length (client_recv w)) w) as (w' & tr & Hrun & Htrace & Hshape);
    [done|].
  exists w', tr. split; [done|]. split; [done|]. by apply streaming_run_lock_step.
Qed.

(** * More on the Host header *)

Lemma split_rounds_single_free {A} `{!EqDecision A} (c : A) (n : nat) :
  ∀ (s x : list A), length s ≤ n → x ∈ Py.split_rounds n [c] s None → c ∉ x.
Proof.
  induction n as [|n IH]; intros s x Hn; simpl.
  - destruct s; [|simpl in Hn; lia]. intros ->%list_elem_of_singleton. set_solver.
  - destruct (Py.find [c] s) as [i|] eqn:F.
    + intros [->|Hx]%elem_of_cons.
      * intros Hc. apply list_elem_of_split in Hc as (l1 & l2 & Hc).
        pose proof (find_occurrence _ _ _ F) as [Hs Hi].
        rewrite Hc in Hs. rewrite <- app_assoc in Hs. simpl in Hs.
        pose proof (find_least _ _ _ l1 _ F Hs) as Hle.
        assert (length (take i s) = length l1 + S (length l2)) as Hlen
          by (by rewrite Hc, length_app).
        rewrite length_take in Hlen. lia.
      * apply (IH (drop (i + length [c]) s)); [|done].
        apply find_occurrence in F as [_ Hi]. rewrite length_drop. simpl in *. lia.
    + intros ->%list_elem_of_singleton Hc.
      apply find_None in F. apply F.
      apply list_elem_of_split in Hc as (l1 & l2 & ->). by exists l1, l2.
Qed.

Lemma lstrip_suffix (s : str) : ∃ k, s = k ++ Py.lstrip s.
Proof.
  induction s as [|c s [k IH]]; [by exists []|]. simpl.
  destruct (Py.isspace c); [|by exists []].
  exists (c :: k). simpl. by f_equal.
Qed.

Lemma lstrip_head (s : str) (c : N) :
  head (Py.lstrip s) = Some c → Py.isspace c = false.
Proof.
  induction s as [|c' s IH]; [done|]. simpl.
  destruct (Py.isspace c') eqn:E; [done|]. by intros [= <-].
Qed.

Lemma rstrip_prefix (s : str) : ∃ k, s = Py.rstrip s ++ k.
Proof.
  unfold Py.rstrip. destruct (lstrip_suffix (rev s)) as [k Hk].
  exists (rev k). rewrite <- rev_app_distr, <- Hk. by rewrite rev_involutive.
Qed.

Lemma last_rev_head {A} (l : list A) : last (rev l) = head l.
Proof. destruct l as [|x l]; [done|]. simpl. apply last_snoc. Qed.

Lemma rstrip_last (s : str) (c : N) :
  last (Py.rstrip s) = Some c → Py.isspace c = false.
Proof.
  unfold Py.rstrip. rewrite last_rev_head. apply lstrip_head.
Qed.

(** What [strip] returns is a part of its argument that neither starts nor
    ends with white space. *)
Lemma strip_spec (s : str) :
  (∃ k1 k2, s = k1 ++ Py.strip s ++ k2) ∧
  (∀ c, head (Py.strip s) = Some c → Py.isspace c = false) ∧
  (∀ c, last (Py.strip s) = Some c → Py.isspace c = false).
Proof.
  unfold Py.strip.
  destruct (lstrip_suffix s) as [k1 Hk1].
  destruct (rstrip_prefix (Py.lstrip s)) as [k2 Hk2].
  split; [|split].
  - exists k1, k2. by rewrite <- Hk2.
  - intros c Hc. apply (lstrip_head s). rewrite Hk2.
    destruct (Py.rstrip (Py.lstrip s)); [done|]. exact Hc.
  - apply rstrip_last.
Qed.

Section HostInvariants.
Variable unicode_decimal : N → option N.

Local Abbreviation parse := (parse_host_header unicode_decimal).
Local Abbreviation colon := 58%N.

(** X9: a host returned by the Host header parser contains no colon and
    neither starts nor ends with white space; its port is 80 unless the
    decoded line has at least two colons. *)
Theorem parsed_host_is_clean (line : bytes) (host : str) (port : Z) :
  parse line = (Some host, Some port) →
  (colon ∉ host) ∧
  (∀ c, head host = Some c → Py.isspace c = false) ∧
  (∀ c, last host = Some c → Py.isspace c = false) ∧
  ((port = 80%Z) ∨
   (∃ text, Py.decode line = Ok text ∧ 3 ≤ length (Py.split [colon] text None))).
Proof.
  destruct (Py.decode line) as [text|e] eqn:Hdecode.
  2: { unfold parse_host_header. by rewrite Hdecode. }
  rewrite (parse_host_header_decoded _ _ _ Hdecode).
  destruct (Py.split [colon] text None) as [|name [|field rest]] eqn:Hsplit; try done.
  assert (colon ∉ field) as Hfield.
  { apply (split_rounds_single_free colon (length text) text); [done|].
    unfold Py.split in Hsplit. rewrite Hsplit. set_solver. }
  destruct (strip_spec field) as ((k1 & k2 & Hpart) & Hhead & Hlast).
  assert (colon ∉ Py.strip field) as Hclean.
  { intros Hc. apply Hfield. rewrite Hpart. set_solver. }
  destruct rest as [|port_field rest].
  - intros [= <- <-]. by repeat split; [..|left].
  - destruct (Py.int _ _) as [n|]; [|done]. intros [= <- <-].
    repeat split; [done..|]. right. exists text. split; [done|].
    rewrite Hsplit. simpl. lia.
Qed.

End HostInvariants.

(** * Ports read from the Host header *)

Lemma to_N_ascii_bytes (s : str) :
  Forall (λ c, c < 256)%N s → map Byte.to_N (ascii_bytes s) = s.
Proof.
  induction 1 as [|c s Hc _ IH]; [done|]. simpl. f_equal; [|done].
  destruct (Byte.of_N c) as [x|] eqn:E; simpl.
  - by apply Byte.to_of_N.
  - apply Byte.of_N_None_iff in E. lia.
Qed.

Lemma decode_utf8_ascii (s : str) :
  Forall (λ c, c < 128)%N s → Py.decode_utf8 s = Some s.
Proof.
  induction 1 as [|c s Hc _ IH]; [done|].
  cbn [Py.decode_utf8]. apply N.ltb_lt in Hc. rewrite Hc, IH. done.
Qed.

Lemma lstrip_id (s : str) :
  Forall (λ c, Py.isspace c = false) s → Py.lstrip s = s.
Proof. intros [|c s' Hc _]; [done|]. simpl. by rewrite Hc. Qed.

Lemma strip_id (s : str) :
  Forall (λ c, Py.isspace c = false) s → Py.strip s = s.
Proof.
  intros Hs. unfold Py.strip, Py.rstrip. rewrite (lstrip_id s Hs).
  rewrite lstrip_id; [apply rev_involutive|].
  apply Forall_forall. intros c Hc%list_elem_of_In%in_rev%list_elem_of_In.
  by eapply Forall_forall in Hs.
Qed.

Lemma digits_decimal (ds : list N) (acc : Z) (count : nat) :
  Forall (λ d, d < 10)%N ds →
  Py.digits acc count (decimal_text ds)
  = Some (fold_left (λ acc d, 10 * acc + Z.of_N d)%Z ds acc, count + length ds, []).
Proof.
  intros Hds. revert acc count.
  induction Hds as [|d ds Hd _ IH]; intros acc count.
  { simpl. by rewrite Nat.add_0_r. }
  cbn [decimal_text map Py.digits fold_left].
  assert (Py.is_digit (48 + d) = true) as ->.
  { unfold Py.is_digit. apply andb_true_intro. split; apply N.leb_le; lia. }
  assert (Py.digit_value (48 + d) = Z.of_N d) as -> by (unfold Py.digit_value; lia).
  fold (decimal_text ds). rewrite IH. cbn [length].
  by replace (count + S (length ds)) with (S count + length ds) by lia.
Qed.

Lemma digit_cases (d : N) :
  (d < 10)%N →
  d ∈ [0; 1; 2; 3; 4; 5; 6; 7; 8; 9]%N.
Proof.
  intros Hd.
  assert (d = 0 ∨ d = 1 ∨ d = 2 ∨ d = 3 ∨ d = 4 ∨ d = 5 ∨ d = 6 ∨ d = 7
          ∨ d = 8 ∨ d = 9)%N as Hcases by lia.
  rewrite !elem_of_cons. tauto.
Qed.

Lemma int_decimal (unicode_decimal : N → option N) (ds : list N) (negative : bool) :
  ds ≠ [] →
  Forall (λ d, d < 10)%N ds →
  length ds ≤ Py.max_str_digits →
  Py.int unicode_decimal (sign_text negative ++ decimal_text ds)
  = Ok (if negative then - decimal_value ds else decimal_value ds)%Z.
Proof.
  intros Hne Hds Hbound. destruct ds as [|d ds]; [done|]. clear Hne.
  assert (Forall (λ c, c < 127)%N (sign_text negative ++ decimal_text (d :: ds))) as Hascii.
  { apply Forall_app. split; [destruct negative; repeat constructor; lia|].
    unfold decimal_text. apply Forall_map. eapply Forall_impl; [exact Hds|].
    intros x Hx. unfold compose. simpl in *. lia. }
  unfold Py.int.
  assert (mapM (Py.to_ascii unicode_decimal) (sign_text negative ++ decimal_text (d :: ds))
          = Some (sign_text negative ++ decimal_text (d :: ds))) as ->.
  { apply mapM_Some. apply Forall2_same_length_lookup. split; [done|].
    intros i x y Hx Hy. rewrite Hx in Hy. injection Hy as <-.
    unfold Py.to_ascii. eapply Forall_lookup_1 in Hascii; [|exact Hx].
    apply N.ltb_lt in Hascii. by rewrite Hascii. }
  cbn [mbind option_bind].
  pose proof (Forall_inv Hds) as Hd. simpl in Hd. apply digit_cases in Hd.
  pose proof (digits_decimal ds (Z.of_N d) 1 (Forall_inv_tail Hds)) as Hdigits.
  assert (Py.number (decimal_text (d :: ds))
          = Some (decimal_value (d :: ds), length (d :: ds), [])) as Hnumber.
  { unfold decimal_text in *. cbn [map Py.number].
    assert (Py.is_digit (48 + d) = true) as ->.
    { unfold Py.is_digit. apply andb_true_intro.
      pose proof (Forall_inv Hds) as Hd'. simpl in Hd'. split; apply N.leb_le; lia. }
    assert (Py.digit_value (48 + d) = Z.of_N d) as -> by (unfold Py.digit_value; lia).
    rewrite Hdigits. unfold decimal_value. simpl. repeat f_equal. }
  destruct negative.
  - cbn [sign_text app Py.lstrip_ascii].
    change (Py.ascii_space 45) with false. cbv iota beta.
    rewrite Hnumber. cbn [mbind option_bind Py.lstrip_ascii].
    rewrite (bool_decide_eq_true_2 (@nil N = [])) by done.
    by rewrite (bool_decide_eq_true_2 _ Hbound).
  - cbn [sign_text app].
    assert (∀ r, (let t1 := Py.lstrip_ascii (48 + d :: r)%N in
                  match t1 with
                  | 45%N :: r' => (true, r')
                  | 43%N :: r' => (false, r')
                  | _ => (false, t1)
                  end) = (false, (48 + d :: r)%N)) as Hsign.
    { intros r. repeat (apply elem_of_cons in Hd as [->|Hd]; [reflexivity|]).
      by apply elem_of_nil in Hd. }
    cbn [decimal_text map] in *. cbv zeta in Hsign.
    rewrite (Hsign (map (λ d0, 48 + d0)%N ds)). rewrite Hnumber.
    cbn [mbind option_bind Py.lstrip_ascii].
    rewrite (bool_decide_eq_true_2 (@nil N = [])) by done.
    by rewrite (bool_decide_eq_true_2 _ Hbound).
Qed.

Lemma signed_decimal_chars (ds : list N) (negative : bool) :
  Forall (λ d, d < 10)%N ds →
  Forall (λ c, c < 127 ∧ c ≠ 58 ∧ Py.isspace c = false)%N
         (sign_text negative ++ decimal_text ds).
Proof.
  intros Hds. apply Forall_app. split.
  - destruct negative; repeat constructor; done.
  - unfold decimal_text. apply Forall_map. eapply Forall_impl; [exact Hds|].
    intros d Hd. unfold compose. simpl in Hd. apply digit_cases in Hd.
    repeat (apply elem_of_cons in Hd as [->|Hd]; [by repeat split|]).
    by apply elem_of_nil in Hd.
Qed.

(** X10: the Host header parser reads any decimal port: the digits give
    their decimal value, negative after a minus sign.  No range of ports is
    enforced.  The line is one that fits a read of the handler, which also
    keeps the digits below the interpreter's bound on their number. *)
Theorem any_decimal_port_is_accepted (unicode_decimal : N → option N)
    (ds : list N) (negative : bool) :
  ds ≠ [] →
  Forall (λ d, d < 10)%N ds →
  length (Py.b "Host: backend:" ++ ascii_bytes (sign_text negative ++ decimal_text ds))
  ≤ BUFFER_SIZE →
  parse_host_header unicode_decimal
    (Py.b "Host: backend:" ++ ascii_bytes (sign_text negative ++ decimal_text ds))
  = (Some (Py.u "backend"),
     Some (if negative then - decimal_value ds else decimal_value ds)%Z).
Proof.
  intros Hne Hds Hfits.
  assert (length ds ≤ Py.max_str_digits) as Hbound.
  { unfold BUFFER_SIZE in Hfits. unfold ascii_bytes, decimal_text in Hfits.
    rewrite length_app, length_map, length_app, length_map in Hfits.
    unfold Py.max_str_digits. lia. }
  pose proof (signed_decimal_chars ds negative Hds) as Hchars.
  set (t := sign_text negative ++ decimal_text ds) in *.
  assert (Py.decode (Py.b "Host: backend:" ++ ascii_bytes t)
          = Ok (Py.u "Host" ++ 58%N :: Py.u " backend" ++ 58%N :: t)) as Hdecode.
  { unfold Py.decode. rewrite map_app, to_N_ascii_bytes.
    - change (map Byte.to_N (Py.b "Host: backend:") ++ t)
        with (Py.u "Host: backend:" ++ t).
      rewrite decode_utf8_ascii; [done|]. apply Forall_app. split.
      + apply (bool_decide_unpack _). vm_compute. exact I.
      + eapply Forall_impl; [exact Hchars|]. simpl. lia.
    - eapply Forall_impl; [exact Hchars|]. simpl. lia. }
  assert (58%N ∉ t) as Hcolon.
  { intros Hin. eapply Forall_forall in Hchars; [|exact Hin]. by destruct Hchars as (_ & ? & _). }
  rewrite (parse_host_header_decoded _ _ _ Hdecode).
  rewrite split_single by (apply (bool_decide_unpack _); vm_compute; exact I).
  rewrite split_single by (apply (bool_decide_unpack _); vm_compute; exact I).
  rewrite split_single_absent by done.
  rewrite (strip_id t).
  - subst t. rewrite (int_decimal unicode_decimal ds negative Hne Hds Hbound). reflexivity.
  - eapply Forall_impl; [exact Hchars|]. by intros c (_ & _ & ?).
Qed.

(** * The lines of the header block *)

Lemma first_split_crlf (line rest : bytes) :
  ¬ occurs Py.CRLF line → first_split Py.CRLF (line ++ Py.CRLF ++ rest) line rest.
Proof.
  intros Hfree. split; [done|]. intros before' after' Hs.
  destruct (decide (length line ≤ length before')) as [|Hlt]; [done|]. exfalso.
  destruct (decide (length before' + 2 ≤ length line)) as [Hin|Hedge].
  - apply Hfree. exists before', (drop (length before' + 2) line).
    assert (take (length before' + 2) (line ++ Py.CRLF ++ rest)
            = take (length before' + 2) (before' ++ Py.CRLF ++ after')) as Htake
      by (by rewrite Hs).
    rewrite take_app_le in Htake by done.
    rewrite (app_assoc before'), take_app_length' in Htake
      by (rewrite length_app; simpl; lia).
    rewrite <- (take_drop (length before' + 2) line) at 1.
    by rewrite Htake, <- app_assoc.
  - assert ((line ++ Py.CRLF ++ rest) !! (length before' + 1) = Some Py.CR) as Hleft.
    { rewrite lookup_app_r by lia.
      by replace (length before' + 1 - length line) with 0 by lia. }
    rewrite Hs, lookup_app_r in Hleft by lia.
    by replace (length before' + 1 - length before') with 1 in Hleft by lia.
Qed.

(** Cutting at CRLF a block built by joining lines with CRLF gives the
    lines back, when no line holds a CRLF. *)
Lemma split_join_crlf (lines : list bytes) :
  lines ≠ [] →
  Forall (λ line, ¬ occurs Py.CRLF line) lines →
  Py.split Py.CRLF (py_join Py.CRLF lines) None = lines.
Proof.
  intros Hne Hfree. induction Hfree as [|line lines Hline Hlines IH]; [done|].
  destruct lines as [|line' lines].
  - simpl. by apply split_absent.
  - change (py_join Py.CRLF (line :: line' :: lines))
      with (line ++ Py.CRLF ++ py_join Py.CRLF (line' :: lines)).
    pose proof (first_split_crlf line (py_join Py.CRLF (line' :: lines)) Hline) as Hcut.
    pose proof (find_first_split _ _ _ _ Hcut) as F.
    assert (Py.CRLF ≠ []) as Hsep by done.
    rewrite (split_cut _ _ _ Hsep F), take_app_length. f_equal.
    rewrite drop_app_add, drop_app_length. by apply IH.
Qed.

Lemma host_line_join (before after : list bytes) (line : bytes) :
  Forall (λ l, ¬ occurs Py.CRLF l ∧ Py.startswith (Py.b "Host: ") l = false) before →
  ¬ occurs Py.CRLF line →
  Py.startswith (Py.b "Host: ") line = true →
  Forall (λ l, ¬ occurs Py.CRLF l) after →
  host_line (py_join Py.CRLF (before ++ line :: after)) = line.
Proof.
  intros Hbefore Hline Hhost Hafter. unfold host_line.
  rewrite split_join_crlf.
  - unfold Py.next_or. induction Hbefore as [|l before [_ Hl] _ IH]; cbn [app].
    + rewrite filter_cons_True by done. done.
    + rewrite filter_cons_False by (rewrite Hl; discriminate). apply IH.
  - by destruct before.
  - apply Forall_app. split; [|by constructor].
    eapply Forall_impl; [exact Hbefore|]. by intros l [? _].
Qed.

Lemma host_line_absent (lines : list bytes) :
  Forall (λ l, ¬ occurs Py.CRLF l ∧ Py.startswith (Py.b "Host: ") l = false) lines →
  host_line (py_join Py.CRLF lines) = [].
Proof.
  intros Hlines. unfold host_line. destruct lines as [|l0 lines]; [done|].
  rewrite split_join_crlf; [|done|].
  - unfold Py.next_or. induction Hlines as [|l lines' [_ Hl] _ IH]; [done|].
    rewrite filter_cons_False by (rewrite Hl; discriminate). apply IH.
  - eapply Forall_impl; [exact Hlines|]. by intros l [? _].
Qed.

Section HeaderTheorems.
Variable unicode_decimal : N → option N.
Variable json_loads : bytes → option pyobj.
Implicit Types table : list (str * EndpointRule).

Local Abbreviation resolve := (determine_target_endpoint unicode_decimal json_loads).
Local Abbreviation blank_line := (Py.CRLF ++ Py.CRLF).

(** X11: the fallback reads the first line of the header block that starts
    with the bytes [Host: ]: when the body is an object that matches no
    rule, the resolver returns what the Host header parser makes of that
    line, whatever lines follow it; when no line of the header block
    starts with [Host: ], it returns [(None, None)]. *)
Theorem fallback_reads_first_host_line table (data body : bytes)
    (lines : list bytes) (d : gmap str pyobj) :
  first_split blank_line data (py_join Py.CRLF lines) body →
  json_loads body = Some (PyDict d) →
  (∀ e, e ∈ table → ¬ rule_matches d e.2) →
  Forall (λ l, ¬ occurs Py.CRLF l) lines →
  (∀ before line after,
     lines = before ++ line :: after →
     Forall (λ l, Py.startswith (Py.b "Host: ") l = false) before →
     Py.startswith (Py.b "Host: ") line = true →
     resolve table data false = parse_host_header unicode_decimal line) ∧
  (Forall (λ l, Py.startswith (Py.b "Host: ") l = false) lines →
   resolve table data false = no_target).
Proof.
  intros Hcut Hload Hno Hfree.
  rewrite (resolve_regular _ _ _ _ _ _ Hcut), Hload.
  unfold find_target_endpoint. rewrite (find_in_no_match _ _ Hno). simpl.
  split.
  - intros before line after -> Hbefore Hhost.
    apply Forall_app in Hfree as [Hfree1 Hfree2].
    apply Forall_cons in Hfree2 as [Hline Hafter].
    rewrite host_line_join; try done. by apply Forall_and.
  - intros Hnone. rewrite host_line_absent; [done|]. by apply Forall_and.
Qed.

End HeaderTheorems.

(** * Closed examples for the further properties *)

(** X4 at work: a client that closes without sending. *)
Lemma unroutable_request_closed_witness :
  ∃ w' tr,
    (∀ rounds,
       handle_client Sample.unicode_decimal Json.loads Sample.API_ENDPOINTS rounds
         Cases.silent = Done (Ok ()) w') ∧
    trace w' = [] ++ tr ∧
    tr = [EvRecv Client (Received []); EvClose Client; EvClose Client] ∧
    dials tr = 0 ∧ sent_to Client tr = [] ∧ sent_to Target tr = [].
Proof.
  apply (unroutable_request_closed Sample.unicode_decimal Json.loads
           Sample.API_ENDPOINTS Cases.silent []).
  - reflexivity.
  - by left.
Defined.

(** X5 at work: the body of this request matches the first sample rule,
    but its header marks it as chunked. *)
Lemma streaming_request_never_relayed_witness :
  Sample.resolve Sample.API_ENDPOINTS Cases.chunked_request
    (is_stream Cases.chunked_request) = no_target ∧
  ∃ w',
    (∀ rounds,
       handle_client Sample.unicode_decimal Json.loads Sample.API_ENDPOINTS rounds
         Cases.chunked = Done (Ok ()) w') ∧
    trace w' = [] ++ [EvRecv Client (Received Cases.chunked_request);
                      EvClose Client; EvClose Client].
Proof.
  apply (streaming_request_never_relayed Sample.unicode_decimal Json.loads
           Sample.API_ENDPOINTS Cases.chunked Cases.chunked_request).
  - reflexivity.
  - apply contains_occurs. vm_compute. reflexivity.
Defined.

(** X6 at work: the request, then the client's further chunk, reach the
    first sample rule's target; its two chunks reach the client. *)
Lemma routed_exchange_end_to_end_witness :
  ∃ w' tr,
    (∀ rounds, 1 ≤ rounds → 2 ≤ rounds →
       handle_client Sample.unicode_decimal Json.loads Sample.API_ENDPOINTS rounds
         Cases.routed = Done (Ok ()) w') ∧
    trace w' = [] ++ tr ∧
    tr = [EvRecv Client
            (Received (Sample.request Sample.post (Sample.body "field1" "value1")));
          EvConnect (Py.u "api1.example.com") 80 true;
          EvSend Target (Sample.request Sample.post (Sample.body "field1" "value1")) true]
         ++ copied Client Target [Py.b "tail"]
         ++ copied Target Client [Py.b "HTTP/1.1 200 OK"; Py.b "done"]
         ++ [EvClose Target; EvClose Client] ∧
    sent_to Target tr
    = [Sample.request Sample.post (Sample.body "field1" "value1"); Py.b "tail"] ∧
    sent_to Client tr = [Py.b "HTTP/1.1 200 OK"; Py.b "done"].
Proof.
  apply (routed_exchange_end_to_end Sample.unicode_decimal Json.loads
           Sample.API_ENDPOINTS Cases.routed
           (Sample.request Sample.post (Sample.body "field1" "value1"))
           (Py.u "api1.example.com") 80
           [Py.b "tail"] [Py.b "HTTP/1.1 200 OK"; Py.b "done"] [] []).
  - reflexivity.
  - reflexivity.
  - discriminate.
  - vm_compute. reflexivity.
  - discriminate.
  - repeat constructor; discriminate.
  - repeat constructor; discriminate.
  - constructor.
  - constructor.
  - reflexivity.
Defined.

(** X9 at work: the host of a line with blanks around it. *)
Lemma parsed_host_is_clean_witness :
  (58%N ∉ Py.u "example.org") ∧
  (∀ c, head (Py.u "example.org") = Some c → Py.isspace c = false) ∧
  (∀ c, last (Py.u "example.org") = Some c → Py.isspace c = false) ∧
  ((8080%Z = 80%Z) ∨
   (∃ text, Py.decode (Py.b "Host:   example.org  :8080") = Ok text ∧
            3 ≤ length (Py.split [58%N] text None))).
Proof.
  apply (parsed_host_is_clean Sample.unicode_decimal
           (Py.b "Host:   example.org  :8080") (Py.u "example.org") 8080).
  vm_compute. reflexivity.
Defined.

(** X10 at work: a port beyond 65535 and a negative port. *)
Lemma any_decimal_port_is_accepted_witness :
  parse_host_header Sample.unicode_decimal (Py.b "Host: backend:70000")
  = (Some (Py.u "backend"), Some 70000%Z) ∧
  parse_host_header Sample.unicode_decimal (Py.b "Host: backend:-1")
  = (Some (Py.u "backend"), Some (-1)%Z).
Proof.
  split.
  - apply (any_decimal_port_is_accepted Sample.unicode_decimal [7; 0; 0; 0; 0]%N false).
    + discriminate.
    + repeat constructor; lia.
    + apply Nat.leb_le. vm_compute. reflexivity.
  - apply (any_decimal_port_is_accepted Sample.unicode_decimal [1]%N true).
    + discriminate.
    + repeat constructor; lia.
    + apply Nat.leb_le. vm_compute. reflexivity.
Defined.

(** X11 at work: of two Host lines the first decides. *)
Lemma fallback_reads_first_host_line_witness :
  Sample.resolve Sample.API_ENDPOINTS Cases.two_hosts_request false
  = (Some (Py.u "first.example"), Some 8000%Z).
Proof.
  assert (first_split (Py.CRLF ++ Py.CRLF) Cases.two_hosts_request
            (py_join Py.CRLF Cases.two_hosts) (Sample.body "field1" "value2")) as Hcut.
  { apply (find_Some_first_split (Py.CRLF ++ Py.CRLF) Cases.two_hosts_request 75).
    vm_compute. reflexivity. }
  assert (Json.loads (Sample.body "field1" "value2")
          = Some (PyDict (Sample.document "field1" "value2"))) as Hload
    by (vm_compute; reflexivity).
  destruct (fallback_reads_first_host_line Sample.unicode_decimal Json.loads
              Sample.API_ENDPOINTS Cases.two_hosts_request
              (Sample.body "field1" "value2") Cases.two_hosts
              (Sample.document "field1" "value2") Hcut Hload) as [Hfirst _].
  - intros e He. repeat (apply elem_of_cons in He as [->|He]);
      [vm_compute; discriminate ..|by apply elem_of_nil in He].
  - repeat constructor; apply find_None; vm_compute; reflexivity.
  - unfold Sample.resolve.
    rewrite (Hfirst [Py.b "POST /api/endpoint HTTP/1.1"]
               (Py.b "Host: first.example:8000") [Py.b "Host: second.example"]).
    + vm_compute. reflexivity.
    + reflexivity.
    + by repeat constructor.
    + reflexivity.
Defined.
